(** * Manifest validation (package config)

    A shallow embedding of the validating visitor of the GitOps manifest:
    [Manifest.Validate], the three visitor callbacks, the helper checks and
    the error constructors, followed by the properties of the validator.

    Go maps are [gmap]s; the visitor's mutable fields are threaded as an
    explicit state record; a Go [range] over a map may deliver the entries
    in any order, so the deferred source-URL check is a relation. *)

From Stdlib Require Import String Ascii List Bool Arith Lia Permutation.
From stdpp Require Import base option list gmap strings fin_maps.
Import ListNotations.
Local Open Scope string_scope.
Local Open Scope list_scope.

(** ** Data model

    The type declarations of the package are not among the files at hand;
    the records carry exactly the fields that the validator reads.  A Go
    pointer field that may be nil is an [option]. *)

Record Secret := mkSecret {
  secret_Name : string;
  secret_Namespace : string }.

Record Webhook := mkWebhook {
  hook_Secret : option Secret }.

Record TemplateBinding := mkTemplateBinding {
  Bindings : list string }.

Record Pipelines := mkPipelines {
  Integration : option TemplateBinding }.

Record Repository := mkRepository {
  repo_URL : string;
  repo_Path : string }.

Record Service := mkService {
  svc_Name : string;
  svc_SourceURL : string;
  svc_Webhook : option Webhook;
  svc_Pipelines : option Pipelines }.

Record Application := mkApplication {
  app_Name : string;
  app_ServiceRefs : list string;
  app_ConfigRepo : option Repository }.

Record Environment := mkEnvironment {
  env_Name : string;
  env_Pipelines : option Pipelines;
  env_Apps : list Application;
  env_Services : list Service }.

Record ArgoCDConfig := mkArgoCDConfig {
  argo_Namespace : string }.

Record PipelinesConfig := mkPipelinesConfig {
  pipeline_Name : string }.

Record Config := mkConfig {
  cfg_ArgoCDConfig : option ArgoCDConfig;
  cfg_PipelineConfig : option PipelinesConfig }.

Record Manifest := mkManifest {
  man_Config : option Config;
  man_Environments : list Environment }.

(** ** Errors

    [apis.FieldError] with the three fields the constructors fill in; the
    Go [error] interface holds either such a field error or the plain error
    built by [fmt.Errorf]. *)

Record FieldError := mkFieldError {
  Message : string;
  Details : string;
  Paths : list string }.

Inductive error :=
| FieldErr (fe : FieldError)
| Errorf (msg : string).

#[global] Instance FieldError_eq_dec : EqDecision FieldError.
Proof. solve_decision. Defined.

#[global] Instance error_eq_dec : EqDecision error.
Proof. solve_decision. Defined.

(** [strings.ReplaceAll(path, "/", ".")]: the pattern is one byte long, so
    the replacement is a map over the bytes of the string. *)
Fixpoint yamlPath (path : string) : string :=
  match path with
  | EmptyString => EmptyString
  | String c rest =>
      String (if Ascii.eqb c "/"%char then "."%char else c) (yamlPath rest)
  end.

(** [yamlJoin(a, b...)]: the loop [a = a + "." + s]. *)
Definition yamlJoin (a : string) (b : list string) : string :=
  fold_left (fun acc s => acc +:+ "." +:+ s) b a.

(** [strings.Join(elems, sep)]. *)
Fixpoint strings_Join (elems : list string) (sep : string) : string :=
  match elems with
  | [] => ""
  | [s] => s
  | s :: rest => s +:+ sep +:+ strings_Join rest sep
  end.

(** [list(errs...)] returns its arguments. *)
Definition list_errs (errs : list error) : list error := errs.

(** Modelled from the spec: [apis.ErrMultipleOneOf] belongs to
    knative.dev/pkg/apis and is not among the files at hand; it is the
    mutually-exclusive-fields error of the spec, a field error over the
    given paths with that package's fixed message and no details. *)
Definition ErrMultipleOneOf (fieldPaths : list string) : FieldError :=
  {| Message := "expected exactly one, got both";
     Details := "";
     Paths := fieldPaths |}.

(** Modelled from the spec: [multierror.Join] belongs to
    github.com/mkmik/multierror and is not among the files at hand; the spec
    describes its result as one combined error value holding the individual
    errors, here the list of them in the order given. *)
Record MultiError := mkMultiError {
  Errors : list error }.

Definition multierror_Join (errs : list error) : MultiError :=
  {| Errors := errs |}.

(** The visitor's state: [validateVisitor]. *)
Record validateVisitor := mkVisitor {
  errs : list error;
  envNames : gmap string bool;
  appNames : gmap string bool;
  serviceNames : gmap string bool;
  serviceURLs : gmap string (list string);
  configNames : gmap string bool }.

(** [vv.errs = append(vv.errs, es...)]. *)
Definition append_errs (vv : validateVisitor) (es : list error) : validateVisitor :=
  {| errs := errs vv ++ es;
     envNames := envNames vv;
     appNames := appNames vv;
     serviceNames := serviceNames vv;
     serviceURLs := serviceURLs vv;
     configNames := configNames vv |}.

Definition set_envNames (vv : validateVisitor) (m : gmap string bool) : validateVisitor :=
  {| errs := errs vv;
     envNames := m;
     appNames := appNames vv;
     serviceNames := serviceNames vv;
     serviceURLs := serviceURLs vv;
     configNames := configNames vv |}.

Definition set_appNames (vv : validateVisitor) (m : gmap string bool) : validateVisitor :=
  {| errs := errs vv;
     envNames := envNames vv;
     appNames := m;
     serviceNames := serviceNames vv;
     serviceURLs := serviceURLs vv;
     configNames := configNames vv |}.

Definition set_serviceNames (vv : validateVisitor) (m : gmap string bool) : validateVisitor :=
  {| errs := errs vv;
     envNames := envNames vv;
     appNames := appNames vv;
     serviceNames := m;
     serviceURLs := serviceURLs vv;
     configNames := configNames vv |}.

Definition set_serviceURLs (vv : validateVisitor) (m : gmap string (list string)) : validateVisitor :=
  {| errs := errs vv;
     envNames := envNames vv;
     appNames := appNames vv;
     serviceNames := serviceNames vv;
     serviceURLs := m;
     configNames := configNames vv |}.

Definition set_configNames (vv : validateVisitor) (m : gmap string bool) : validateVisitor :=
  {| errs := errs vv;
     envNames := envNames vv;
     appNames := appNames vv;
     serviceNames := serviceNames vv;
     serviceURLs := serviceURLs vv;
     configNames := m |}.

(** The fresh visitor built at the start of [Validate]. *)
Definition new_validateVisitor : validateVisitor :=
  {| errs := [];
     envNames := ∅;
     appNames := ∅;
     serviceNames := ∅;
     serviceURLs := ∅;
     configNames := ∅ |}.

(** An optional error as the list of errors it contributes. *)
Definition opt_errs (e : option error) : list error :=
  match e with
  | Some e => [e]
  | None => []
  end.

(** ** The name rule

    [validateName] delegates to [validation.NameIsDNS1035Label] of
    k8s.io/apimachinery, which is not among the files at hand.  The
    validator below takes that function as a parameter; the rule itself is
    modelled here from section 4.1 of the specification. *)

(** Regular expressions over bytes, enough for the label grammar. *)
Inductive regex :=
| Class (p : ascii -> bool)
| Seq (r1 r2 : regex)
| Star (r : regex)
| Opt (r : regex).

(** [matches r s]: the whole string [s] is in the language of [r]. *)
Inductive matches : regex -> string -> Prop :=
| MClass p c : p c = true -> matches (Class p) (String c "")
| MSeq r1 r2 s1 s2 :
    matches r1 s1 -> matches r2 s2 -> matches (Seq r1 r2) (s1 +:+ s2)
| MStarNil r : matches (Star r) ""
| MStarCons r s1 s2 :
    matches r s1 -> matches (Star r) s2 -> matches (Star r) (s1 +:+ s2)
| MOptNone r : matches (Opt r) ""
| MOptSome r s : matches r s -> matches (Opt r) s.

Definition in_range (lo hi : nat) (c : ascii) : bool :=
  ((lo <=? nat_of_ascii c)%nat && (nat_of_ascii c <=? hi)%nat)%bool.

(** [a-z] *)
Definition is_lower (c : ascii) : bool := in_range 97 122 c.
(** [a-z0-9] *)
Definition is_lower_alnum (c : ascii) : bool := is_lower c || in_range 48 57 c.
(** [-a-z0-9] *)
Definition is_label_char (c : ascii) : bool :=
  Ascii.eqb c "-"%char || is_lower_alnum c.

(** The grammar [[a-z]([-a-z0-9]*[a-z0-9])?] of the specification. *)
Definition dns1035LabelFmt : regex :=
  Seq (Class is_lower)
      (Opt (Seq (Star (Class is_label_char)) (Class is_lower_alnum))).

Definition DNS1035LabelMaxLength : nat := 63.

(** The scan for [([-a-z0-9]*[a-z0-9])?] up to the end of the string. *)
Fixpoint label_tail (s : string) : bool :=
  match s with
  | EmptyString => true
  | String c rest =>
      match rest with
      | EmptyString => is_lower_alnum c
      | String _ _ => is_label_char c && label_tail rest
      end
  end.

(** Every byte of [s] is in the class [p]. *)
Fixpoint all_chars (p : ascii -> bool) (s : string) : bool :=
  match s with
  | EmptyString => true
  | String c rest => p c && all_chars p rest
  end.

(** The anchored match of the label grammar, as a scan. *)
Definition dns1035LabelRegexp_MatchString (value : string) : bool :=
  match value with
  | EmptyString => false
  | String c rest => is_lower c && label_tail rest
  end.

(** The two reasons of the rule; the specification leaves their wording
    open. *)
Definition MaxLenError : string :=
  "must be no more than 63 characters".

Definition RegexError : string :=
  "a DNS-1035 label must consist of lower case alphanumeric characters or '-', start with an alphabetic character, and end with an alphanumeric character".

(** Modelled from the spec: the name rule of section 4.1, standing for
    [validation.NameIsDNS1035Label], which is not among the files at hand.  It
    returns the reasons for which the candidate is rejected, none when it is
    valid: the length bound of 63 bytes first, the grammar second.  The
    specification does not mention the [prefix] flag that [validateName]
    passes, and the model does not look at it. *)
Definition NameIsDNS1035Label_spec (name : string) (prefix : bool) : list string :=
  (if (DNS1035LabelMaxLength <? String.length name)%nat then [MaxLenError] else [])
  ++ (if dns1035LabelRegexp_MatchString name then [] else [RegexError]).

(** The nodes of a manifest, in the shape the walker hands them to the
    visitor callbacks. *)
Inductive node :=
| EnvNode (env : Environment)
| AppNode (env : Environment) (app : Application)
| SvcNode (env : Environment) (svc : Service).

(** The callback contract of the walker: one callback per node type, each
    turning the visitor's state into a new state and returning nil or a
    fatal error. *)
Record Visitor (S : Type) := mkCallbacks {
  onEnvironment : S -> Environment -> S * option error;
  onApplication : S -> Environment -> Application -> S * option error;
  onService : S -> Environment -> Service -> S * option error }.
Arguments onEnvironment {S}.
Arguments onApplication {S}.
Arguments onService {S}.

(** Modelled from the spec: [Manifest.Walk] is declared with the manifest
    types and is not among the files at hand.  Section 4.4: the
    environments in document order;
    within an environment the environment itself, its applications in
    document order and its service declarations in document order; the walk
    stops at the first callback that returns a fatal error and returns it. *)
Fixpoint walkApplications {S} (v : Visitor S) (env : Environment)
    (apps : list Application) (s : S) : S * option error :=
  match apps with
  | [] => (s, None)
  | app :: rest =>
      match onApplication v s env app with
      | (s', Some e) => (s', Some e)
      | (s', None) => walkApplications v env rest s'
      end
  end.

Fixpoint walkServices {S} (v : Visitor S) (env : Environment)
    (svcs : list Service) (s : S) : S * option error :=
  match svcs with
  | [] => (s, None)
  | svc :: rest =>
      match onService v s env svc with
      | (s', Some e) => (s', Some e)
      | (s', None) => walkServices v env rest s'
      end
  end.

Definition walkEnvironment {S} (v : Visitor S) (env : Environment) (s : S)
    : S * option error :=
  match onEnvironment v s env with
  | (s1, Some e) => (s1, Some e)
  | (s1, None) =>
      match walkApplications v env (env_Apps env) s1 with
      | (s2, Some e) => (s2, Some e)
      | (s2, None) => walkServices v env (env_Services env) s2
      end
  end.

Fixpoint walkEnvironments {S} (v : Visitor S) (envs : list Environment) (s : S)
    : S * option error :=
  match envs with
  | [] => (s, None)
  | env :: rest =>
      match walkEnvironment v env s with
      | (s', Some e) => (s', Some e)
      | (s', None) => walkEnvironments v rest s'
      end
  end.

Definition Walk {S} (m : Manifest) (v : Visitor S) (s : S) : S * option error :=
  walkEnvironments v (man_Environments m) s.

(** The order in which [Walk] reaches the nodes of a manifest. *)
Definition env_nodes (env : Environment) : list node :=
  EnvNode env
  :: map (AppNode env) (env_Apps env) ++ map (SvcNode env) (env_Services env).

Definition traversal (m : Manifest) : list node :=
  flat_map env_nodes (man_Environments m).

(** A Go [range] over a map delivers every entry once, in an order that the
    language leaves open: [entries] is one of the sequences the loop may
    see. *)
Definition map_range {V} (m : gmap string V) (entries : list (string * V)) : Prop :=
  entries ≡ₚ map_to_list m.

(** ** Image repositories (package imagerepo)

    [strings.TrimSpace] is a parameter of the two functions that use it. *)

(** [strings.Split(s, sep)] for a separator of one byte: the pieces of [s]
    between the occurrences of [sep], one more than there are occurrences. *)
Fixpoint strings_Split (s : string) (sep : ascii) : list string :=
  match s with
  | EmptyString => [EmptyString]
  | String c rest =>
      if Ascii.eqb c sep
      then EmptyString :: strings_Split rest sep
      else
        match strings_Split rest sep with
        | [] => [String c EmptyString]
        | piece :: pieces => String c piece :: pieces
        end
  end.

Definition imageRepoValidationErrors (imageRepo : string) : error :=
  Errorf ("failed to parse image repo:" +:+ imageRepo
          +:+ ", expected image repository in the form <registry>/<username>/<repository> or <project>/<app> for internal registry").

Definition isBlank (TrimSpace : string -> string) (s : string) : bool :=
  String.eqb (TrimSpace s) "" || (String.length (TrimSpace s) <? String.length s)%nat.

(** [ValidateImageRepo]: whether the repository is of the internal
    registry, the repository to use, and the error. *)
Definition ValidateImageRepo (TrimSpace : string -> string)
    (imageRepo registryURL : string) : bool * string * option error :=
  let components := strings_Split imageRepo "/"%char in
  if (length components <? 2)%nat
  then (false, "", Some (imageRepoValidationErrors imageRepo))
  else if existsb (isBlank TrimSpace) components
  then (false, "", Some (imageRepoValidationErrors imageRepo))
  else if (length components =? 2)%nat
  then
    if String.eqb (nth 0 components "") "docker.io"
       || String.eqb (nth 0 components "") "quay.io"
    then (false, "", Some (imageRepoValidationErrors imageRepo))
    else (true, registryURL +:+ "/" +:+ imageRepo, None)
  else if (length components =? 3)%nat
  then (String.eqb (nth 0 components "") registryURL, imageRepo, None)
  else (false, "", Some (imageRepoValidationErrors imageRepo)).

(** ** Prompt validators (package ui) *)

Definition CheckSecretLength (secret : string) : bool :=
  if negb (String.eqb secret "")
  then (if (String.length secret <? 16)%nat then true else false)
  else false.

(** The [interface{}] answer handed to a [survey.Validator]: a string, or a
    value of another type. *)
Inductive answer :=
| StringAnswer (s : string)
| OtherAnswer.

(** [validateSecretLength(secret)]: the validator it returns, applied to
    [input]. *)
Definition validateSecretLength (secret : string) (input : answer) : option error :=
  match input with
  | StringAnswer s =>
      if Bool.eqb (CheckSecretLength s) true
      then Some (Errorf "The secret length should 16 or more ")
      else None
  | OtherAnswer => None
  end.

(** ** Dependency checks of the wizard (package pipelines) *)

Definition sealedSecretsName : string := "sealed-secrets-controller".
Definition sealedSecretsNS : string := "kube-system".
Definition argoCDNS : string := "argocd".
Definition pipelinesOperatorNS : string := "openshift-operators".

(** [types.NamespacedName]. *)
Record NamespacedName := mkNamespacedName {
  nn_Namespace : string;
  nn_Name : string }.

(** The three probes of the cluster that the function calls on the client
    of package utility; each returns nil or an error. *)
Record Client := mkClient {
  CheckIfSealedSecretsExists : string -> string -> option error;
  CheckIfArgoCDExists : string -> option error;
  CheckIfPipelinesExists : string -> option error }.

(** What the function writes through package log, in order. *)
Inductive log_event :=
| LogProgressf (msg : string)
| LogSpinner (msg : string)
| LogWarningStatus (msg : string)
| LogEnd (ok : bool).

Definition newline : string := String (ascii_of_nat 10) "".

(** [checkBootstrapDependencies]: the log it writes, the
    [SealedSecretsService] field of the parameters as it leaves it, and the
    error it returns.  The single variable [err] is assigned by each probe in
    turn and tested once, after the last one. *)
Definition checkBootstrapDependencies (sealedSecretsService : NamespacedName)
    (client : Client) : list log_event * NamespacedName * option error :=
  let log0 := [LogProgressf (newline +:+ "Checking dependencies" +:+ newline)] in
  let err1 := CheckIfSealedSecretsExists client (sealedSecretsNS +:+ "s") sealedSecretsName in
  let log1 :=
    log0
    ++ LogSpinner "Checking if Sealed Secrets is installed at kube-system namespace"
       :: match err1 with
          | Some _ =>
              [LogWarningStatus "Please install Sealed Secrets from https://github.com/bitnami-labs/sealed-secrets/releases";
               LogEnd false]
          | None => [LogEnd true]
          end in
  let service1 :=
    match err1 with
    | Some _ => sealedSecretsService
    | None => {| nn_Namespace := sealedSecretsNS; nn_Name := sealedSecretsName |}
    end in
  let err2 := CheckIfArgoCDExists client argoCDNS in
  let log2 :=
    log1
    ++ LogSpinner "Checking if ArgoCD Operator is installed at argocd namespace"
       :: match err2 with
          | Some _ =>
              [LogWarningStatus "Please install ArgoCD operator from OperatorHub"; LogEnd false]
          | None => [LogEnd true]
          end in
  let err3 := CheckIfPipelinesExists client pipelinesOperatorNS in
  let log3 :=
    log2
    ++ LogSpinner "Checking if OpenShift Pipelines Operator is installed"
       :: match err3 with
          | Some _ =>
              [LogWarningStatus "Please install OpenShift Pipelines operator from OperatorHub";
               LogEnd false]
          | None => [LogEnd true]
          end in
  (log3, service1,
   match err3 with
   | Some _ => Some (Errorf "Failed to satisfy the required dependencies")
   | None => None
   end).

Definition is_spinner (e : log_event) : bool :=
  match e with LogSpinner _ => true | _ => false end.

Definition is_end (e : log_event) : bool :=
  match e with LogEnd _ => true | _ => false end.

Definition is_warning (e : log_event) : bool :=
  match e with LogWarningStatus _ => true | _ => false end.

(** The number of probes of [client] that return an error. *)
Definition failed_probes (client : Client) : nat :=
  length (opt_errs (CheckIfSealedSecretsExists client (sealedSecretsNS +:+ "s")
                      sealedSecretsName))
  + length (opt_errs (CheckIfArgoCDExists client argoCDNS))
  + length (opt_errs (CheckIfPipelinesExists client pipelinesOperatorNS)).

(** ** Sample instances

    The properties below hold for every choice of the validator's
    parameters.  The examples run the validator on concrete manifests and
    need concrete parameters: quoting that puts the string between double
    quotes (what [strconv.Quote] yields for printable ASCII text without
    quote or backslash), and paths made of the names of the enclosing
    environment and of the node. *)

Definition dquote : string := String (ascii_of_nat 34) "".

Definition sample_Quote (s : string) : string := dquote +:+ s +:+ dquote.

Definition sample_PathForEnvironment (env : Environment) : string :=
  "environments/" +:+ env_Name env.

Definition sample_PathForApplication (env : Environment) (app : Application) : string :=
  sample_PathForEnvironment env +:+ "/apps/" +:+ app_Name app.

Definition sample_PathForService (env : Environment) (serviceName : string) : string :=
  sample_PathForEnvironment env +:+ "/services/" +:+ serviceName.

Definition sample_service (name url : string) : Service :=
  {| svc_Name := name; svc_SourceURL := url;
     svc_Webhook := None; svc_Pipelines := None |}.

Definition sample_environment (name : string) (apps : list Application)
    (svcs : list Service) : Environment :=
  {| env_Name := name; env_Pipelines := None;
     env_Apps := apps; env_Services := svcs |}.

Definition sample_application (name : string) (refs : list string) : Application :=
  {| app_Name := name; app_ServiceRefs := refs; app_ConfigRepo := None |}.


(** Four services, two for each of two source URLs. *)
Definition manifest_two_sources : Manifest :=
  {| man_Config := None;
     man_Environments :=
       [ sample_environment "dev" []
           [ sample_service "svc1" "https://example.com/a.git";
             sample_service "svc2" "https://example.com/a.git";
             sample_service "svc3" "https://example.com/b.git";
             sample_service "svc4" "https://example.com/b.git" ] ] |}.

(** The two entries that the URL map holds after the walk of
    [manifest_two_sources]. *)
Definition entry_a : string * list string :=
  ("https://example.com/a.git",
   ["environments.dev.services.svc1"; "environments.dev.services.svc2"]).

Definition entry_b : string * list string :=
  ("https://example.com/b.git",
   ["environments.dev.services.svc3"; "environments.dev.services.svc4"]).

(** An application of the first environment refers to a service that the
    second environment declares. *)
Definition manifest_forward_reference : Manifest :=
  {| man_Config := None;
     man_Environments :=
       [ sample_environment "dev" [ sample_application "app1" ["svc1"] ] [];
         sample_environment "prod" [] [ sample_service "svc1" "" ] ] |}.

(** An application refers to the yaml path of a service of an earlier
    environment; no service bears that path as its name. *)
Definition manifest_path_reference : Manifest :=
  {| man_Config := None;
     man_Environments :=
       [ sample_environment "dev" [] [ sample_service "svc1" "" ];
         sample_environment "stage"
           [ sample_application "app1" ["environments.dev.services.svc1"] ] [] ] |}.

(** A service with an invalid name, and an application of a later
    environment that refers to it. *)
Definition manifest_invalid_service : Manifest :=
  {| man_Config := None;
     man_Environments :=
       [ sample_environment "dev" [] [ sample_service "Bad_Name" "" ];
         sample_environment "prod" [ sample_application "app1" ["Bad_Name"] ] [] ] |}.

(** No Config block and no environment. *)
Definition manifest_empty : Manifest :=
  {| man_Config := None; man_Environments := [] |}.

(** The ArgoCD namespace "-argo" is not a valid name, and an environment
    bears it. *)
Definition manifest_config_collision : Manifest :=
  {| man_Config :=
       Some {| cfg_ArgoCDConfig := Some {| argo_Namespace := "-argo" |};
               cfg_PipelineConfig := Some {| pipeline_Name := "cicd" |} |};
     man_Environments :=
       [ sample_environment "dev" [] []; sample_environment "-argo" [] [] ] |}.

(** Trimming of the ASCII white space at both ends, which is what
    [strings.TrimSpace] does on ASCII text. *)
Definition is_ascii_space (c : ascii) : bool :=
  (nat_of_ascii c =? 32)%nat || in_range 9 13 c.

Fixpoint trim_left (s : string) : string :=
  match s with
  | EmptyString => EmptyString
  | String c rest => if is_ascii_space c then trim_left rest else s
  end.

Fixpoint trim_right (s : string) : string :=
  match s with
  | EmptyString => EmptyString
  | String c rest =>
      match trim_right rest with
      | EmptyString => if is_ascii_space c then EmptyString else String c EmptyString
      | String _ _ as kept => String c kept
      end
  end.

Definition sample_TrimSpace (s : string) : string := trim_right (trim_left s).

(** A manifest with a config block, a pipelines block, a webhook, a config
    repository and a reference to a service of an earlier environment. *)
Definition manifest_accepted : Manifest :=
  {| man_Config :=
       Some {| cfg_ArgoCDConfig := Some {| argo_Namespace := "argocd" |};
               cfg_PipelineConfig := Some {| pipeline_Name := "cicd" |} |};
     man_Environments :=
       [ {| env_Name := "dev";
            env_Pipelines :=
              Some {| Integration := Some {| Bindings := ["github-push-binding"] |} |};
            env_Apps :=
              [ {| app_Name := "config-app";
                   app_ServiceRefs := [];
                   app_ConfigRepo :=
                     Some {| repo_URL := "https://example.com/config.git";
                             repo_Path := "deploy" |} |} ];
            env_Services :=
              [ {| svc_Name := "svc1";
                   svc_SourceURL := "https://example.com/a.git";
                   svc_Webhook :=
                     Some {| hook_Secret :=
                               Some {| secret_Name := "webhook-secret";
                                       secret_Namespace := "cicd" |} |};
                   svc_Pipelines := None |} ] |};
         sample_environment "stage" [ sample_application "app1" ["svc1"] ] [] ] |}.

(** Two services without source URL, and a reference that no service
    satisfies. *)
Definition manifest_no_sources : Manifest :=
  {| man_Config := None;
     man_Environments :=
       [ sample_environment "dev" [ sample_application "app1" ["absent"] ]
           [ sample_service "svc1" ""; sample_service "svc2" "" ] ] |}.

(** The names that the Config block of a manifest holds. *)
Definition config_names (m : Manifest) : list string :=
  match man_Config m with
  | None => []
  | Some cfg =>
      match cfg_ArgoCDConfig cfg with
      | Some argo => [argo_Namespace argo]
      | None => []
      end
      ++ match cfg_PipelineConfig cfg with
         | Some pipeline => [pipeline_Name pipeline]
         | None => []
         end
  end.



(** An environment whose name fails the label check. *)
Definition manifest_invalid_environment : Manifest :=
  {| man_Config := None;
     man_Environments := [ sample_environment "Bad_Name" [] [] ] |}.

(** ** The validator

    The functions that the validator calls and whose code is not at hand
    are parameters: the [%q] verb of [fmt] on a string ([strconv.Quote]),
    the DNS-1035 label check, and the three path builders of the package. *)
Section Validator.

Variable Quote : string -> string.
Variable NameIsDNS1035Label : string -> bool -> list string.
Variable PathForEnvironment : Environment -> string.
Variable PathForApplication : Environment -> Application -> string.
Variable PathForService : Environment -> string -> string.

Definition addQuotes (items : list string) : list string :=
  map Quote items.

Definition invalidNameError (name details : string) (paths : list string) : FieldError :=
  {| Message := "invalid name " +:+ Quote name;
     Details := details;
     Paths := paths |}.

Definition missingFieldsError (fields paths : list string) : FieldError :=
  {| Message := "missing field(s) " +:+ strings_Join (addQuotes fields) ",";
     Details := "";
     Paths := paths |}.

Definition duplicateFieldsError (fields paths : list string) : FieldError :=
  {| Message := "duplicate field(s) " +:+ strings_Join (addQuotes fields) ",";
     Details := "";
     Paths := paths |}.

Definition missingServiceRefError (svc app : string) (paths : list string) : FieldError :=
  {| Message := "missing service " +:+ Quote svc +:+ " in app " +:+ Quote app;
     Details := "";
     Paths := paths |}.

Definition duplicateSourceError (url : string) (paths : list string) : FieldError :=
  {| Message := "duplicate source " +:+ url;
     Details := "";
     Paths := paths |}.

(** The collision error of the environment callback, built by [fmt.Errorf]. *)
Definition configNameCollision (name : string) : error :=
  Errorf ("The environment " +:+ name
          +:+ " cannot have the same name as the config names").

(** [checkDuplicate]: the lookup and the registration both use [path]; the
    map is returned as the call leaves it. *)
Definition checkDuplicate (field path : string) (checkMap : gmap string bool)
    : gmap string bool * option error :=
  match checkMap !! path with
  | Some _ => (checkMap, Some (FieldErr (duplicateFieldsError [field] [path])))
  | None => (<[path := true]> checkMap, None)
  end.

(** [validateName]: the first reason of the label check, if any. *)
Definition validateName (name path : string) : option FieldError :=
  match NameIsDNS1035Label name true with
  | [] => None
  | reason :: _ => Some (invalidNameError name reason [path])
  end.

(** A [*apis.FieldError] that may be nil, as the errors it contributes. *)
Definition field_errs (e : option FieldError) : list error :=
  opt_errs (FieldErr <$> e).

Definition validateConfigRepo (repo : Repository) (path : string) : list error :=
  let missingFields :=
    (if String.eqb (repo_URL repo) "" then ["url"] else [])
    ++ (if String.eqb (repo_Path repo) "" then ["path"] else []) in
  if (0 <? length missingFields)%nat
  then [FieldErr (missingFieldsError missingFields [path])]
  else [].

Definition validateWebhook (hook : option Webhook) (path : string) : list error :=
  match hook with
  | None => []
  | Some hook =>
      match hook_Secret hook with
      | None =>
          list_errs [FieldErr (missingFieldsError ["secret"] [yamlJoin path ["webhook"]])]
      | Some secret =>
          field_errs (validateName (secret_Name secret)
                        (yamlJoin path ["webhook"; "secret"; "name"]))
          ++ field_errs (validateName (secret_Namespace secret)
                           (yamlJoin path ["webhook"; "secret"; "namespace"]))
      end
  end.

Definition validatePipelines (pipelines : option Pipelines) (path : string) : list error :=
  match pipelines with
  | None => []
  | Some pipelines =>
      match Integration pipelines with
      | None =>
          list_errs [FieldErr (missingFieldsError ["integration"] [yamlJoin path ["pipelines"]])]
      | Some integration =>
          flat_map
            (fun name =>
               field_errs (validateName name
                             (yamlJoin path ["pipelines"; "integration"; "binding"])))
            (Bindings integration)
      end
  end.

(** [validateConfig]: returns its errors and registers both config names,
    whatever the outcome of the name check. *)
Definition vv_validateConfig (vv : validateVisitor) (manifest : Manifest)
    : validateVisitor * list error :=
  match man_Config manifest with
  | None => (vv, [])
  | Some cfg =>
      let r1 :=
        match cfg_ArgoCDConfig cfg with
        | None => (vv, [])
        | Some argo =>
            (set_configNames vv (<[argo_Namespace argo := true]> (configNames vv)),
             field_errs (validateName (argo_Namespace argo)
                           ("config." +:+ argo_Namespace argo)))
        end in
      let r2 :=
        match cfg_PipelineConfig cfg with
        | None => (fst r1, [])
        | Some pipeline =>
            (set_configNames (fst r1)
               (<[pipeline_Name pipeline := true]> (configNames (fst r1))),
             field_errs (validateName (pipeline_Name pipeline)
                           ("config." +:+ pipeline_Name pipeline)))
        end in
      (fst r2, snd r1 ++ snd r2)
  end.

(** The [Environment] callback. *)
Definition vv_Environment (vv : validateVisitor) (env : Environment)
    : validateVisitor * option error :=
  let envPath := yamlPath (PathForEnvironment env) in
  let vv1 :=
    match configNames vv !! env_Name env with
    | Some _ => append_errs vv [configNameCollision (env_Name env)]
    | None => vv
    end in
  let dup := checkDuplicate (env_Name env) envPath (envNames vv1) in
  let vv2 := append_errs (set_envNames vv1 (fst dup)) (opt_errs (snd dup)) in
  let vv3 := append_errs vv2 (field_errs (validateName (env_Name env) envPath)) in
  let vv4 := append_errs vv3 (validatePipelines (env_Pipelines env) envPath) in
  (vv4, None).

(** One round of the loop over [app.ServiceRefs]: the lookup of the
    reference [r] in the service-name registry. *)
Definition serviceRefCheck (names : gmap string bool) (app : Application)
    (appPath r : string) : list error :=
  match names !! r with
  | Some _ => []
  | None => [FieldErr (missingServiceRefError r (app_Name app) [appPath])]
  end.

(** The [Application] callback. *)
Definition vv_Application (vv : validateVisitor) (env : Environment) (app : Application)
    : validateVisitor * option error :=
  let appPath := yamlPath (PathForApplication env app) in
  let dup := checkDuplicate (app_Name app) appPath (appNames vv) in
  let vv1 := append_errs (set_appNames vv (fst dup)) (opt_errs (snd dup)) in
  let vv2 := append_errs vv1 (field_errs (validateName (app_Name app) appPath)) in
  let vv3 :=
    if (length (app_ServiceRefs app) =? 0)%nat && bool_decide (app_ConfigRepo app = None)
    then append_errs vv2
           [FieldErr (missingFieldsError ["services"; "config_repo"] [appPath])]
    else vv2 in
  let vv4 :=
    if (0 <? length (app_ServiceRefs app))%nat && bool_decide (app_ConfigRepo app ≠ None)
    then append_errs vv3
           [FieldErr (ErrMultipleOneOf
                        [yamlJoin appPath ["services"]; yamlJoin appPath ["config_repo"]])]
    else vv3 in
  let vv5 :=
    match app_ConfigRepo app with
    | Some repo =>
        append_errs vv4 (validateConfigRepo repo (yamlJoin appPath ["config_repo"]))
    | None => vv4
    end in
  let vv6 :=
    if (0 <? length (app_ServiceRefs app))%nat
    then append_errs vv5
           (flat_map (serviceRefCheck (serviceNames vv5) app appPath) (app_ServiceRefs app))
    else vv5 in
  (vv6, None).

(** The [Service] callback. *)
Definition vv_Service (vv : validateVisitor) (env : Environment) (svc : Service)
    : validateVisitor * option error :=
  let svcPath := yamlPath (PathForService env (svc_Name svc)) in
  let vv1 :=
    if String.eqb (svc_SourceURL svc) ""
    then vv
    else
      let previous :=
        match serviceURLs vv !! svc_SourceURL svc with
        | Some paths => paths
        | None => []
        end in
      set_serviceURLs vv (<[svc_SourceURL svc := previous ++ [svcPath]]> (serviceURLs vv)) in
  let dup := checkDuplicate (svc_Name svc) svcPath (serviceNames vv1) in
  let vv2 := append_errs (set_serviceNames vv1 (fst dup)) (opt_errs (snd dup)) in
  let vv3 := append_errs vv2 (field_errs (validateName (svc_Name svc) svcPath)) in
  let vv4 := append_errs vv3 (validateWebhook (svc_Webhook svc) svcPath) in
  let vv5 := append_errs vv4 (validatePipelines (svc_Pipelines svc) svcPath) in
  (set_serviceNames vv5 (<[svc_Name svc := true]> (serviceNames vv5)), None).

(** The visitor handed to [Walk]. *)
Definition validateVisitor_callbacks : Visitor validateVisitor :=
  {| onEnvironment := vv_Environment;
     onApplication := vv_Application;
     onService := vv_Service |}.

(** The callback that a node triggers, as a step on the visitor's state. *)
Definition visit (vv : validateVisitor) (n : node) : validateVisitor :=
  match n with
  | EnvNode env => fst (vv_Environment vv env)
  | AppNode env app => fst (vv_Application vv env app)
  | SvcNode env svc => fst (vv_Service vv env svc)
  end.

Definition visits (ns : list node) (vv : validateVisitor) : validateVisitor :=
  fold_left visit ns vv.

(** The body of the loop of [validateServiceURLs] over the entries in the
    order the [range] delivers them. *)
Definition validateServiceURLs_range (entries : list (string * list string)) : list error :=
  flat_map
    (fun entry =>
       if (1 <? length (snd entry))%nat
       then [FieldErr (duplicateSourceError (fst entry) (snd entry))]
       else [])
    entries.

(** [validateServiceURLs]: [result] is a list the function may return. *)
Definition vv_validateServiceURLs (vv : validateVisitor) (result : list error) : Prop :=
  exists entries,
    map_range (serviceURLs vv) entries /\ result = validateServiceURLs_range entries.

(** The first two steps of [Validate]: the visitor after the config check
    and the walk, with the errors of both (and the walker's own error, if
    any) in [errs]. *)
Definition walked (m : Manifest) : validateVisitor :=
  let vv := new_validateVisitor in
  let cfg := vv_validateConfig vv m in
  let vv1 := append_errs (fst cfg) (snd cfg) in
  let w := Walk m validateVisitor_callbacks vv1 in
  append_errs (fst w) (opt_errs (snd w)).

(** The last step of [Validate]: nil for no error, the joined errors
    otherwise. *)
Definition joined (all : list error) : option MultiError :=
  if (length all =? 0)%nat then None else Some (multierror_Join all).

(** [Manifest.Validate]: [result] is a value the call may return, [None]
    standing for the nil error. *)
Definition Validate (m : Manifest) (result : option MultiError) : Prop :=
  exists urlErrs,
    vv_validateServiceURLs (walked m) urlErrs
    /\ result = joined (errs (walked m) ++ urlErrs).

(** The value that [Validate] returns when the [range] of the deferred
    check delivers [entries]. *)
Definition Validate_in_order (m : Manifest) (entries : list (string * list string))
    : option MultiError :=
  joined (errs (walked m) ++ validateServiceURLs_range entries).

(** The errors that the [Application] callback appends: the duplicate and
    name checks, the oneOf checks, the config repository and the reference
    lookups, in this order. *)
Definition Application_front (vv : validateVisitor) (env : Environment)
    (app : Application) : list error :=
  let appPath := yamlPath (PathForApplication env app) in
  opt_errs (checkDuplicate (app_Name app) appPath (appNames vv)).2
  ++ field_errs (validateName (app_Name app) appPath)
  ++ (if (length (app_ServiceRefs app) =? 0)%nat && bool_decide (app_ConfigRepo app = None)
      then [FieldErr (missingFieldsError ["services"; "config_repo"] [appPath])]
      else [])
  ++ (if (0 <? length (app_ServiceRefs app))%nat && bool_decide (app_ConfigRepo app ≠ None)
      then [FieldErr (ErrMultipleOneOf
                        [yamlJoin appPath ["services"]; yamlJoin appPath ["config_repo"]])]
      else [])
  ++ match app_ConfigRepo app with
     | Some repo => validateConfigRepo repo (yamlJoin appPath ["config_repo"])
     | None => []
     end.

(** The URL map after the first step of the [Service] callback. *)
Definition record_source (urls : gmap string (list string)) (env : Environment)
    (svc : Service) : gmap string (list string) :=
  if String.eqb (svc_SourceURL svc) ""
  then urls
  else <[svc_SourceURL svc :=
           match urls !! svc_SourceURL svc with
           | Some paths => paths
           | None => []
           end ++ [yamlPath (PathForService env (svc_Name svc))]]> urls.

(** A name that no visited service registers, neither as its name nor as
    its path, stays out of the service-name registry. *)
Definition registers (r : string) (n : node) : Prop :=
  match n with
  | SvcNode env svc =>
      svc_Name svc = r \/ yamlPath (PathForService env (svc_Name svc)) = r
  | _ => False
  end.

(** The visitor after the first step of [Validate], the config check. *)
Definition configured (m : Manifest) : validateVisitor :=
  append_errs (vv_validateConfig new_validateVisitor m).1
              (vv_validateConfig new_validateVisitor m).2.

(** The paths of the service nodes of [ns] that declare [url], in the order
    of the visits. *)
Definition declaring_paths (url : string) (ns : list node) : list string :=
  flat_map
    (fun n =>
       match n with
       | SvcNode env svc =>
           if String.eqb (svc_SourceURL svc) url
           then [yamlPath (PathForService env (svc_Name svc))]
           else []
       | _ => []
       end)
    ns.

(** The paths recorded for [url] in the URL map, none when the key is absent. *)
Definition url_paths (urls : gmap string (list string)) (url : string) : list string :=
  default [] (urls !! url).

(** The errors whose message is the one of a duplicate-source error for
    [url]. *)
Definition is_duplicate_source (url : string) (e : error) : bool :=
  match e with
  | FieldErr fe => String.eqb (Message fe) ("duplicate source " +:+ url)
  | Errorf _ => false
  end.

(** The errors that are not a duplicate-source error for [url]. *)
Definition other_error (url : string) (e : error) : Prop :=
  is_duplicate_source url e = false.

(** Whether the label check accepts [name]: [validateName] returns nil. *)
Definition name_ok (name : string) : bool :=
  match NameIsDNS1035Label name true with
  | [] => true
  | _ :: _ => false
  end.

(** Whether [s] starts with [p]. *)
Fixpoint has_prefix (p s : string) : bool :=
  match p, s with
  | EmptyString, _ => true
  | String a p', String b s' => Ascii.eqb a b && has_prefix p' s'
  | String _ _, EmptyString => false
  end.

(** The errors whose message is the one of a duplicate-field error. *)
Definition is_duplicate_field (e : error) : bool :=
  match e with
  | FieldErr fe => has_prefix "duplicate field(s) " (Message fe)
  | Errorf _ => false
  end.

(** The yaml paths of the environments, of the applications and of the
    services among the nodes [ns], and the keys that the services put into
    the service-name registry: the path and the bare name of each. *)
Definition env_paths (ns : list node) : list string :=
  flat_map
    (fun n => match n with
              | EnvNode env => [yamlPath (PathForEnvironment env)]
              | _ => []
              end) ns.

Definition app_paths (ns : list node) : list string :=
  flat_map
    (fun n => match n with
              | AppNode env app => [yamlPath (PathForApplication env app)]
              | _ => []
              end) ns.

Definition service_paths (ns : list node) : list string :=
  flat_map
    (fun n => match n with
              | SvcNode env svc => [yamlPath (PathForService env (svc_Name svc))]
              | _ => []
              end) ns.

Definition service_keys (ns : list node) : list string :=
  flat_map
    (fun n => match n with
              | SvcNode env svc =>
                  [yamlPath (PathForService env (svc_Name svc)); svc_Name svc]
              | _ => []
              end) ns.

(** The errors that the callbacks append over the visits [ns], started in
    the state [vv]: for each node what its callback adds to [errs]. *)
Fixpoint walk_errors (ns : list node) (vv : validateVisitor) : list error :=
  match ns with
  | [] => []
  | n :: rest =>
      drop (length (errs vv)) (errs (visit vv n)) ++ walk_errors rest (visit vv n)
  end.
(** ** The walk as a sequence of visits *)

Lemma walkApplications_visits env apps vv :
  walkApplications validateVisitor_callbacks env apps vv
  = (visits (map (AppNode env) apps) vv, None).
Proof.
  revert vv. induction apps as [|app apps IH]; intros vv; [reflexivity|].
  simpl. apply IH.
Qed.

Lemma walkServices_visits env svcs vv :
  walkServices validateVisitor_callbacks env svcs vv
  = (visits (map (SvcNode env) svcs) vv, None).
Proof.
  revert vv. induction svcs as [|svc svcs IH]; intros vv; [reflexivity|].
  simpl. apply IH.
Qed.

Lemma visits_app ns1 ns2 vv :
  visits (ns1 ++ ns2) vv = visits ns2 (visits ns1 vv).
Proof. apply fold_left_app. Qed.

Lemma walkEnvironment_visits env vv :
  walkEnvironment validateVisitor_callbacks env vv = (visits (env_nodes env) vv, None).
Proof.
  unfold walkEnvironment, env_nodes.
  change (visits (EnvNode env :: ?l) vv) with (visits l (fst (vv_Environment vv env))).
  rewrite visits_app.
  change (onEnvironment validateVisitor_callbacks vv env)
    with (fst (vv_Environment vv env), @None error).
  cbv iota beta.
  now rewrite walkApplications_visits, walkServices_visits.
Qed.

Lemma walkEnvironments_visits envs vv :
  walkEnvironments validateVisitor_callbacks envs vv
  = (visits (flat_map env_nodes envs) vv, None).
Proof.
  revert vv. induction envs as [|env envs IH]; intros vv; [reflexivity|].
  simpl. rewrite walkEnvironment_visits, IH. now rewrite visits_app.
Qed.

Lemma Walk_visits m vv :
  Walk m validateVisitor_callbacks vv = (visits (traversal m) vv, None).
Proof. apply walkEnvironments_visits. Qed.

Lemma walked_visits m : walked m = visits (traversal m) (configured m).
Proof.
  unfold walked, configured. rewrite Walk_visits. simpl.
  destruct (visits _ _) as [e ? ? ? ? ?]. unfold append_errs; simpl.
  now rewrite app_nil_r.
Qed.

(** ** What each callback does to the visitor's fields *)

Lemma checkDuplicate_fst_lookup field path checkMap k :
  is_Some (checkMap !! k) -> is_Some ((checkDuplicate field path checkMap).1 !! k).
Proof.
  intros Hk. unfold checkDuplicate.
  destruct (checkMap !! path) eqn:E; simpl; [exact Hk|].
  destruct (decide (path = k)) as [->|Hne].
  - rewrite lookup_insert_eq. eauto.
  - now rewrite lookup_insert_ne.
Qed.

Lemma checkDuplicate_registers field path checkMap :
  is_Some ((checkDuplicate field path checkMap).1 !! path).
Proof.
  unfold checkDuplicate. destruct (checkMap !! path) eqn:E; simpl.
  - rewrite E. eauto.
  - rewrite lookup_insert_eq. eauto.
Qed.

Lemma checkDuplicate_seen field path checkMap :
  is_Some (checkMap !! path) ->
  checkDuplicate field path checkMap
  = (checkMap, Some (FieldErr (duplicateFieldsError [field] [path]))).
Proof. intros [b Hb]. unfold checkDuplicate. now rewrite Hb. Qed.

Lemma checkDuplicate_true field path checkMap k :
  checkMap !! k = Some true -> (checkDuplicate field path checkMap).1 !! k = Some true.
Proof.
  intros Hk. unfold checkDuplicate.
  destruct (checkMap !! path) eqn:E; simpl; [exact Hk|].
  destruct (decide (path = k)) as [->|Hne].
  - now rewrite lookup_insert_eq.
  - now rewrite lookup_insert_ne.
Qed.

(** The errors that the [Environment] callback appends. *)
Lemma Environment_errs vv env :
  errs (vv_Environment vv env).1
  = errs vv
    ++ (match configNames vv !! env_Name env with
        | Some _ => [configNameCollision (env_Name env)]
        | None => []
        end
        ++ opt_errs (checkDuplicate (env_Name env) (yamlPath (PathForEnvironment env))
                       (envNames vv)).2
        ++ field_errs (validateName (env_Name env) (yamlPath (PathForEnvironment env)))
        ++ validatePipelines (env_Pipelines env) (yamlPath (PathForEnvironment env))).
Proof.
  unfold vv_Environment. destruct (configNames vv !! env_Name env); simpl;
    now rewrite <- ?app_assoc.
Qed.

Lemma Environment_envNames vv env :
  envNames (vv_Environment vv env).1
  = (checkDuplicate (env_Name env) (yamlPath (PathForEnvironment env)) (envNames vv)).1.
Proof.
  unfold vv_Environment. now destruct (configNames vv !! env_Name env).
Qed.

Lemma Environment_frame vv env :
  configNames (vv_Environment vv env).1 = configNames vv
  /\ serviceNames (vv_Environment vv env).1 = serviceNames vv
  /\ serviceURLs (vv_Environment vv env).1 = serviceURLs vv.
Proof.
  unfold vv_Environment. now destruct (configNames vv !! env_Name env).
Qed.

Lemma Application_errs vv env app :
  errs (vv_Application vv env app).1
  = errs vv
    ++ Application_front vv env app
    ++ flat_map (serviceRefCheck (serviceNames vv) app
                   (yamlPath (PathForApplication env app)))
         (app_ServiceRefs app).
Proof using Quote NameIsDNS1035Label PathForApplication.
  unfold vv_Application, Application_front.
  destruct (app_ServiceRefs app) as [|r refs]; destruct (app_ConfigRepo app) as [repo|];
    simpl; rewrite <- ?app_assoc; simpl; rewrite ?app_nil_r; reflexivity.
Qed.

Lemma Application_frame vv env app :
  configNames (vv_Application vv env app).1 = configNames vv
  /\ envNames (vv_Application vv env app).1 = envNames vv
  /\ serviceNames (vv_Application vv env app).1 = serviceNames vv
  /\ serviceURLs (vv_Application vv env app).1 = serviceURLs vv.
Proof.
  unfold vv_Application.
  destruct (app_ServiceRefs app) as [|r refs]; destruct (app_ConfigRepo app) as [repo|];
    simpl; auto.
Qed.

Lemma Service_errs vv env svc :
  errs (vv_Service vv env svc).1
  = errs vv
    ++ (opt_errs (checkDuplicate (svc_Name svc) (yamlPath (PathForService env (svc_Name svc)))
                    (serviceNames vv)).2
        ++ field_errs (validateName (svc_Name svc)
                         (yamlPath (PathForService env (svc_Name svc))))
        ++ validateWebhook (svc_Webhook svc) (yamlPath (PathForService env (svc_Name svc)))
        ++ validatePipelines (svc_Pipelines svc)
             (yamlPath (PathForService env (svc_Name svc)))).
Proof.
  unfold vv_Service. destruct (String.eqb (svc_SourceURL svc) ""); simpl;
    now rewrite <- ?app_assoc.
Qed.

Lemma Service_serviceNames vv env svc :
  serviceNames (vv_Service vv env svc).1
  = <[svc_Name svc := true]>
      (checkDuplicate (svc_Name svc) (yamlPath (PathForService env (svc_Name svc)))
         (serviceNames vv)).1.
Proof.
  unfold vv_Service. now destruct (String.eqb (svc_SourceURL svc) "").
Qed.

Lemma Service_serviceURLs vv env svc :
  serviceURLs (vv_Service vv env svc).1 = record_source (serviceURLs vv) env svc.
Proof.
  unfold vv_Service, record_source. now destruct (String.eqb (svc_SourceURL svc) "").
Qed.

Lemma Service_frame vv env svc :
  configNames (vv_Service vv env svc).1 = configNames vv
  /\ envNames (vv_Service vv env svc).1 = envNames vv.
Proof.
  unfold vv_Service. now destruct (String.eqb (svc_SourceURL svc) "").
Qed.

(** ** Invariants of a sequence of visits *)

Lemma visits_cons n ns vv : visits (n :: ns) vv = visits ns (visit vv n).
Proof. reflexivity. Qed.

Lemma visit_errs vv n : exists es, errs (visit vv n) = errs vv ++ es.
Proof.
  destruct n as [env|env app|env svc]; unfold visit.
  - rewrite Environment_errs; eauto.
  - rewrite Application_errs; eauto.
  - rewrite Service_errs; eauto.
Qed.

Lemma visits_errs ns vv : exists es, errs (visits ns vv) = errs vv ++ es.
Proof.
  revert vv. induction ns as [|n ns IH]; intros vv.
  - exists []. now rewrite app_nil_r.
  - destruct (IH (visit vv n)) as [es1 H1]. destruct (visit_errs vv n) as [es0 H0].
    exists (es0 ++ es1). now rewrite visits_cons, H1, H0, app_assoc.
Qed.

Lemma visits_keeps_error ns vv e : e ∈ errs vv -> e ∈ errs (visits ns vv).
Proof.
  intros He. destruct (visits_errs ns vv) as [es ->]. apply elem_of_app; auto.
Qed.

Lemma visit_configNames vv n : configNames (visit vv n) = configNames vv.
Proof.
  destruct n as [env|env app|env svc]; unfold visit.
  - apply Environment_frame.
  - apply Application_frame.
  - apply Service_frame.
Qed.

Lemma visits_configNames ns vv : configNames (visits ns vv) = configNames vv.
Proof.
  revert vv. induction ns as [|n ns IH]; intros vv; [reflexivity|].
  now rewrite visits_cons, IH, visit_configNames.
Qed.



Lemma visit_serviceNames_true vv n k :
  serviceNames vv !! k = Some true -> serviceNames (visit vv n) !! k = Some true.
Proof.
  intros Hk. destruct n as [env|env app|env svc]; unfold visit.
  - destruct (Environment_frame vv env) as (_ & -> & _). exact Hk.
  - destruct (Application_frame vv env app) as (_ & _ & -> & _). exact Hk.
  - rewrite Service_serviceNames.
    destruct (decide (svc_Name svc = k)) as [->|Hne].
    + now rewrite lookup_insert_eq.
    + rewrite lookup_insert_ne by exact Hne. now apply checkDuplicate_true.
Qed.

Lemma visits_serviceNames_true ns vv k :
  serviceNames vv !! k = Some true -> serviceNames (visits ns vv) !! k = Some true.
Proof.
  revert vv. induction ns as [|n ns IH]; intros vv Hk; [exact Hk|].
  rewrite visits_cons. apply IH. now apply visit_serviceNames_true.
Qed.

(** The two keys under which the [Service] callback registers a service. *)
Lemma Service_registers_name vv env svc :
  serviceNames (vv_Service vv env svc).1 !! svc_Name svc = Some true.
Proof. rewrite Service_serviceNames. apply lookup_insert_eq. Qed.

Lemma checkDuplicate_fresh_true field path checkMap :
  (forall k, is_Some (checkMap !! k) -> checkMap !! k = Some true) ->
  forall k, is_Some ((checkDuplicate field path checkMap).1 !! k) ->
            (checkDuplicate field path checkMap).1 !! k = Some true.
Proof.
  intros Hall k. unfold checkDuplicate.
  destruct (checkMap !! path) eqn:E; simpl; [apply Hall|].
  destruct (decide (path = k)) as [->|Hne].
  - now rewrite lookup_insert_eq.
  - rewrite lookup_insert_ne by exact Hne. apply Hall.
Qed.

Lemma Service_registers_path vv env svc :
  is_Some (serviceNames (vv_Service vv env svc).1
             !! yamlPath (PathForService env (svc_Name svc))).
Proof.
  rewrite Service_serviceNames, lookup_insert.
  case_decide; [eauto | apply checkDuplicate_registers].
Qed.

Lemma visit_serviceNames vv n k :
  is_Some (serviceNames vv !! k) -> is_Some (serviceNames (visit vv n) !! k).
Proof.
  intros Hk. destruct n as [env|env app|env svc]; unfold visit.
  - destruct (Environment_frame vv env) as (_ & -> & _). exact Hk.
  - destruct (Application_frame vv env app) as (_ & _ & -> & _). exact Hk.
  - rewrite Service_serviceNames.
    destruct (decide (svc_Name svc = k)) as [->|Hne].
    + rewrite lookup_insert_eq. eauto.
    + rewrite lookup_insert_ne by exact Hne. now apply checkDuplicate_fst_lookup.
Qed.

Lemma visits_serviceNames ns vv k :
  is_Some (serviceNames vv !! k) -> is_Some (serviceNames (visits ns vv) !! k).
Proof.
  revert vv. induction ns as [|n ns IH]; intros vv Hk; [exact Hk|].
  rewrite visits_cons. apply IH. now apply visit_serviceNames.
Qed.

Lemma visit_serviceNames_None vv n r :
  serviceNames vv !! r = None -> ~ registers r n ->
  serviceNames (visit vv n) !! r = None.
Proof.
  intros Hr Hn. destruct n as [env|env app|env svc]; unfold visit.
  - destruct (Environment_frame vv env) as (_ & -> & _). exact Hr.
  - destruct (Application_frame vv env app) as (_ & _ & -> & _). exact Hr.
  - unfold registers in Hn. rewrite Service_serviceNames.
    rewrite lookup_insert_ne by tauto.
    unfold checkDuplicate.
    destruct (serviceNames vv !! yamlPath (PathForService env (svc_Name svc))) eqn:E;
      simpl; [exact Hr|].
    rewrite lookup_insert_ne by tauto. exact Hr.
Qed.

Lemma visits_serviceNames_None ns vv r :
  serviceNames vv !! r = None -> Forall (fun n => ~ registers r n) ns ->
  serviceNames (visits ns vv) !! r = None.
Proof.
  revert vv. induction ns as [|n ns IH]; intros vv Hr Hns; [exact Hr|].
  inversion Hns; subst. rewrite visits_cons. apply IH; [|assumption].
  now apply visit_serviceNames_None.
Qed.

(** ** Runs of [Validate] *)

(** [Validate] always returns: the [range] of the deferred check has at
    least one order in which to deliver the entries. *)
Lemma Validate_total m : exists result, Validate m result.
Proof.
  exists (Validate_in_order m (map_to_list (serviceURLs (walked m)))).
  exists (validateServiceURLs_range (map_to_list (serviceURLs (walked m)))).
  split; [|reflexivity]. eexists; split; [|reflexivity].
  unfold map_range. reflexivity.
Qed.

Lemma joined_nonempty all e :
  e ∈ all -> joined all = Some (multierror_Join all).
Proof.
  intros He. unfold joined. destruct all; [inversion He | reflexivity].
Qed.

(** An error accumulated by the end of the walk is in every result. *)
Lemma Validate_reports m result e :
  Validate m result -> e ∈ errs (walked m) ->
  exists me, result = Some me /\ e ∈ Errors me.
Proof.
  intros (urlErrs & _ & ->) He.
  exists (multierror_Join (errs (walked m) ++ urlErrs)). split.
  - apply joined_nonempty with e. apply elem_of_app; auto.
  - simpl. apply elem_of_app; auto.
Qed.

Lemma traversal_split m env :
  env ∈ man_Environments m ->
  exists ns1 ns2, traversal m = ns1 ++ EnvNode env :: ns2.
Proof.
  intros Hin. apply list_elem_of_split in Hin as (l1 & l2 & Hl).
  unfold traversal. rewrite Hl, flat_map_app. simpl.
  eexists _, _. reflexivity.
Qed.




(** An environment visit that finds its name among the config names
    reports the collision. *)
Lemma collision_reported ns1 ns2 env vv :
  is_Some (configNames vv !! env_Name env) ->
  configNameCollision (env_Name env) ∈ errs (visits (ns1 ++ EnvNode env :: ns2) vv).
Proof.
  intros [b Hb]. rewrite visits_app, visits_cons. apply visits_keeps_error.
  unfold visit. rewrite Environment_errs, visits_configNames, Hb.
  apply elem_of_app; right. left.
Qed.

Lemma validateConfig_frame vv m :
  serviceNames (vv_validateConfig vv m).1 = serviceNames vv
  /\ serviceURLs (vv_validateConfig vv m).1 = serviceURLs vv
  /\ envNames (vv_validateConfig vv m).1 = envNames vv
  /\ errs (vv_validateConfig vv m).1 = errs vv.
Proof.
  unfold vv_validateConfig. destruct (man_Config m) as [cfg|]; [|auto].
  destruct (cfg_ArgoCDConfig cfg), (cfg_PipelineConfig cfg); simpl; auto.
Qed.

Lemma configured_serviceNames m : serviceNames (configured m) = ∅.
Proof. unfold configured. simpl. apply validateConfig_frame. Qed.

Lemma configured_serviceURLs m : serviceURLs (configured m) = ∅.
Proof. unfold configured. simpl. apply validateConfig_frame. Qed.

Lemma configured_errs m :
  errs (configured m) = (vv_validateConfig new_validateVisitor m).2.
Proof.
  unfold configured. simpl.
  destruct (validateConfig_frame new_validateVisitor m) as (_ & _ & _ & ->).
  reflexivity.
Qed.

(** The config check registers both names, whatever [validateName] says. *)
Lemma validateConfig_registers vv m cfg :
  man_Config m = Some cfg ->
  (forall argo, cfg_ArgoCDConfig cfg = Some argo ->
     configNames (vv_validateConfig vv m).1 !! argo_Namespace argo = Some true)
  /\ (forall pipeline, cfg_PipelineConfig cfg = Some pipeline ->
        configNames (vv_validateConfig vv m).1 !! pipeline_Name pipeline = Some true).
Proof.
  intros Hcfg. unfold vv_validateConfig. rewrite Hcfg.
  split.
  - intros argo ->. destruct (cfg_PipelineConfig cfg) as [pipeline|]; simpl.
    + rewrite lookup_insert. case_decide; [reflexivity | apply lookup_insert_eq].
    + apply lookup_insert_eq.
  - intros pipeline ->. simpl. apply lookup_insert_eq.
Qed.

(** ** Environment names *)


(** C10: with a Config block, the config check puts the ArgoCD namespace
    and the pipeline name into the config-name registry whether or not they
    pass the name check, and every environment that bears one of these names
    is reported with the collision error by every run of [Validate]. *)
Theorem C10_config_names_registered (m : Manifest) (cfg : Config) :
  man_Config m = Some cfg ->
  (forall argo, cfg_ArgoCDConfig cfg = Some argo ->
     configNames (vv_validateConfig new_validateVisitor m).1 !! argo_Namespace argo
     = Some true)
  /\ (forall pipeline, cfg_PipelineConfig cfg = Some pipeline ->
        configNames (vv_validateConfig new_validateVisitor m).1 !! pipeline_Name pipeline
        = Some true)
  /\ (exists result, Validate m result)
  /\ forall env,
       env ∈ man_Environments m ->
       (exists argo, cfg_ArgoCDConfig cfg = Some argo /\ argo_Namespace argo = env_Name env)
       \/ (exists pipeline,
             cfg_PipelineConfig cfg = Some pipeline /\ pipeline_Name pipeline = env_Name env) ->
       forall result, Validate m result ->
         exists me, result = Some me
           /\ Errorf ("The environment " +:+ env_Name env
                      +:+ " cannot have the same name as the config names") ∈ Errors me.
Proof.
  intros Hcfg.
  destruct (validateConfig_registers new_validateVisitor m cfg Hcfg) as [Hargo Hpipe].
  split; [exact Hargo|]. split; [exact Hpipe|]. split; [apply Validate_total|].
  intros env Hin Hname result Hrun.
  apply Validate_reports with (m := m); [exact Hrun|].
  rewrite walked_visits.
  destruct (traversal_split m env Hin) as (ns1 & ns2 & ->).
  apply (collision_reported ns1 ns2 env). unfold configured. simpl.
  destruct Hname as [(argo & Ha & <-)|(pipeline & Hp & <-)].
  - rewrite (Hargo argo Ha). eauto.
  - rewrite (Hpipe pipeline Hp). eauto.
Qed.

(** ** Service references *)

Lemma serviceRefCheck_registered names app appPath r :
  is_Some (names !! r) -> serviceRefCheck names app appPath r = [].
Proof. intros [b Hb]. unfold serviceRefCheck. now rewrite Hb. Qed.

Lemma serviceRefCheck_skip names app appPath k refs :
  is_Some (names !! k) ->
  flat_map (serviceRefCheck names app appPath) refs
  = flat_map (serviceRefCheck names app appPath)
      (List.filter (fun r => negb (String.eqb r k)) refs).
Proof.
  intros Hk. induction refs as [|r refs IH]; [reflexivity|].
  simpl. destruct (String.eqb_spec r k) as [->|Hne]; simpl.
  - now rewrite serviceRefCheck_registered.
  - now rewrite IH.
Qed.

(** C5: the references of an application are looked up in the registry as
    it stands when the application is visited.  When no service visited
    before the application registers the reference [r], every run of
    [Validate] reports [r] as missing in that application, whatever the
    nodes visited afterwards declare. *)
Theorem C5_forward_reference_missing (m : Manifest) (pre post : list node)
    (env : Environment) (app : Application) (r : string) :
  traversal m = pre ++ AppNode env app :: post ->
  r ∈ app_ServiceRefs app ->
  (forall e s, SvcNode e s ∈ pre ->
     svc_Name s <> r /\ yamlPath (PathForService e (svc_Name s)) <> r) ->
  (exists result, Validate m result)
  /\ forall result, Validate m result ->
       exists me, result = Some me
         /\ FieldErr {| Message := "missing service " +:+ Quote r
                                   +:+ " in app " +:+ Quote (app_Name app);
                        Details := "";
                        Paths := [yamlPath (PathForApplication env app)] |} ∈ Errors me.
Proof.
  intros Htr Hr Hpre. split; [apply Validate_total|].
  intros result Hrun. apply Validate_reports with (m := m); [exact Hrun|].
  rewrite walked_visits, Htr, visits_app, visits_cons. apply visits_keeps_error.
  unfold visit. rewrite Application_errs.
  apply elem_of_app; right. apply elem_of_app; right.
  assert (serviceNames (visits pre (configured m)) !! r = None) as Hnone.
  { apply visits_serviceNames_None.
    - rewrite configured_serviceNames. apply lookup_empty.
    - apply Forall_forall. intros n Hn Hreg.
      destruct n as [e|e a|e s]; simpl in Hreg; try contradiction.
      destruct (Hpre e s Hn) as [H1 H2]. tauto. }
  apply list_elem_of_In, in_flat_map. exists r. split.
  - now apply list_elem_of_In.
  - unfold serviceRefCheck. rewrite Hnone. now left.
Qed.

(** C6: the [Service] callback ends by registering the bare name of the
    service, whatever its checks reported.  The name stays registered over
    any further visits, so in an application visited later the lookup of a
    reference to that name appends nothing: the callback appends what it
    would append without the references to that name. *)
Theorem C6_service_name_registered (vv : validateVisitor) (env : Environment)
    (svc : Service) (later : list node) (env' : Environment) (app : Application) :
  serviceNames (vv_Service vv env svc).1 !! svc_Name svc = Some true
  /\ serviceNames (visits later (vv_Service vv env svc).1) !! svc_Name svc = Some true
  /\ serviceRefCheck (serviceNames (visits later (vv_Service vv env svc).1)) app
       (yamlPath (PathForApplication env' app)) (svc_Name svc) = []
  /\ errs (vv_Application (visits later (vv_Service vv env svc).1) env' app).1
     = errs (visits later (vv_Service vv env svc).1)
       ++ Application_front (visits later (vv_Service vv env svc).1) env' app
       ++ flat_map
            (serviceRefCheck (serviceNames (visits later (vv_Service vv env svc).1)) app
               (yamlPath (PathForApplication env' app)))
            (List.filter (fun r => negb (String.eqb r (svc_Name svc)))
               (app_ServiceRefs app)).
Proof.
  pose proof (Service_registers_name vv env svc) as H1.
  pose proof (visits_serviceNames_true later _ _ H1) as H2.
  split; [exact H1|]. split; [exact H2|]. split.
  - apply serviceRefCheck_registered. rewrite H2. eauto.
  - rewrite Application_errs. do 2 f_equal.
    apply serviceRefCheck_skip. rewrite H2. eauto.
Qed.

(** C9: the service-name registry is one map that holds the computed yaml
    path of a visited service (put there by [checkDuplicate]) as well as its
    bare name (put there by the final registration).  The path stays
    registered over any further visits, so in an application visited later
    the lookup of a reference equal to that path appends nothing. *)
Theorem C9_service_path_satisfies_reference (vv : validateVisitor) (env : Environment)
    (svc : Service) (later : list node) (env' : Environment) (app : Application) :
  is_Some (serviceNames (vv_Service vv env svc).1
             !! yamlPath (PathForService env (svc_Name svc)))
  /\ is_Some (serviceNames (vv_Service vv env svc).1 !! svc_Name svc)
  /\ is_Some (serviceNames (visits later (vv_Service vv env svc).1)
                !! yamlPath (PathForService env (svc_Name svc)))
  /\ serviceRefCheck (serviceNames (visits later (vv_Service vv env svc).1)) app
       (yamlPath (PathForApplication env' app))
       (yamlPath (PathForService env (svc_Name svc))) = []
  /\ errs (vv_Application (visits later (vv_Service vv env svc).1) env' app).1
     = errs (visits later (vv_Service vv env svc).1)
       ++ Application_front (visits later (vv_Service vv env svc).1) env' app
       ++ flat_map
            (serviceRefCheck (serviceNames (visits later (vv_Service vv env svc).1)) app
               (yamlPath (PathForApplication env' app)))
            (List.filter
               (fun r => negb (String.eqb r (yamlPath (PathForService env (svc_Name svc)))))
               (app_ServiceRefs app)).
Proof.
  pose proof (Service_registers_path vv env svc) as H1.
  pose proof (visits_serviceNames later _ _ H1) as H2.
  split; [exact H1|]. split; [rewrite Service_registers_name; eauto|].
  split; [exact H2|]. split.
  - now apply serviceRefCheck_registered.
  - rewrite Application_errs. do 2 f_equal. now apply serviceRefCheck_skip.
Qed.

(** ** The outcome of [Validate] *)

Lemma walked_errs m :
  exists walkErrs,
    errs (walked m) = (vv_validateConfig new_validateVisitor m).2 ++ walkErrs.
Proof.
  rewrite walked_visits, <- configured_errs. apply visits_errs.
Qed.

Lemma joined_None all : joined all = None <-> all = [].
Proof. unfold joined. destruct all; simpl; split; congruence. Qed.

Lemma joined_Some all me : joined all = Some me -> Errors me = all.
Proof. unfold joined. destruct all; simpl; [congruence|]. now intros [= <-]. Qed.

Lemma map_range_empty {V} (entries : list (string * V)) :
  map_range (∅ : gmap string V) entries -> entries = [].
Proof.
  unfold map_range. rewrite map_to_list_empty. apply Permutation_nil_r.
Qed.

(** ** The deferred source-URL check *)

Lemma validateServiceURLs_range_perm entries1 entries2 :
  entries1 ≡ₚ entries2 ->
  validateServiceURLs_range entries1 ≡ₚ validateServiceURLs_range entries2.
Proof.
  intros H. unfold validateServiceURLs_range.
  induction H as [|x l1 l2 _ IH|x y l|l1 l2 l3 _ IH1 _ IH2]; simpl.
  - reflexivity.
  - now apply Permutation_app_head.
  - rewrite !app_assoc. apply Permutation_app_tail, Permutation_app_comm.
  - now transitivity (flat_map
        (fun entry : string * list string =>
           if (1 <? length entry.2)%nat
           then [FieldErr (duplicateSourceError entry.1 entry.2)] else []) l2).
Qed.

Lemma validateServiceURLs_range_sources entries :
  Forall (fun e => exists url paths, e = FieldErr (duplicateSourceError url paths))
         (validateServiceURLs_range entries).
Proof.
  unfold validateServiceURLs_range. induction entries as [|[url paths] entries IH]; simpl.
  - constructor.
  - destruct (1 <? length paths)%nat; simpl; [constructor; eauto | exact IH].
Qed.

(** C2 (amended): two runs of [Validate] on the same manifest return the
    errors of the config check and of the walk in the same order, followed by
    the deferred duplicate-source errors, which are the same in both runs up
    to their order; the runs agree on success, and they return the same value
    when at most one duplicate-source error is due. *)
Theorem C2_runs_agree_up_to_order (m : Manifest) (r1 r2 : option MultiError) :
  Validate m r1 -> Validate m r2 ->
  exists d1 d2,
    r1 = joined (errs (walked m) ++ d1)
    /\ r2 = joined (errs (walked m) ++ d2)
    /\ d1 ≡ₚ d2
    /\ Forall (fun e => exists url paths, e = FieldErr (duplicateSourceError url paths)) d1
    /\ (r1 = None <-> r2 = None)
    /\ (length d1 <= 1 -> r1 = r2).
Proof.
  intros (d1 & (en1 & Hen1 & ->) & ->) (d2 & (en2 & Hen2 & ->) & ->).
  exists (validateServiceURLs_range en1), (validateServiceURLs_range en2).
  assert (validateServiceURLs_range en1 ≡ₚ validateServiceURLs_range en2) as Hperm.
  { apply validateServiceURLs_range_perm. unfold map_range in *. now rewrite Hen1, Hen2. }
  split; [reflexivity|]. split; [reflexivity|]. split; [exact Hperm|].
  split; [apply validateServiceURLs_range_sources|]. split.
  - rewrite !joined_None. split; intros H; apply app_eq_nil in H as [-> H];
      rewrite H in Hperm.
    + now rewrite (Permutation_nil Hperm).
    + symmetry in Hperm. now rewrite (Permutation_nil Hperm).
  - intros Hlen. destruct (validateServiceURLs_range en1) as [|e [|e' l]].
    + now rewrite (Permutation_nil Hperm).
    + now rewrite (Permutation_length_1_inv Hperm).
    + simpl in Hlen. lia.
Qed.

(** *** The URL map after the walk *)

Lemma record_source_paths urls env svc url :
  url <> "" ->
  url_paths (record_source urls env svc) url
  = url_paths urls url
    ++ (if String.eqb (svc_SourceURL svc) url
        then [yamlPath (PathForService env (svc_Name svc))]
        else []).
Proof.
  intros Hurl. unfold record_source, url_paths.
  destruct (String.eqb_spec (svc_SourceURL svc) "") as [Hempty|Hsrc].
  - destruct (String.eqb_spec (svc_SourceURL svc) url) as [Heq|_]; [congruence|].
    now rewrite app_nil_r.
  - destruct (String.eqb_spec (svc_SourceURL svc) url) as [->|Hne].
    + rewrite lookup_insert_eq. simpl. now destruct (urls !! url).
    + rewrite lookup_insert_ne by exact Hne. now rewrite app_nil_r.
Qed.

Lemma visit_serviceURLs vv n url :
  url <> "" ->
  url_paths (serviceURLs (visit vv n)) url
  = url_paths (serviceURLs vv) url ++ declaring_paths url [n].
Proof.
  intros Hurl. destruct n as [env|env app|env svc]; unfold visit.
  - destruct (Environment_frame vv env) as (_ & _ & ->).
    unfold declaring_paths. simpl. now rewrite app_nil_r.
  - destruct (Application_frame vv env app) as (_ & _ & _ & ->).
    unfold declaring_paths. simpl. now rewrite app_nil_r.
  - rewrite Service_serviceURLs, record_source_paths by exact Hurl.
    unfold declaring_paths. simpl. now rewrite app_nil_r.
Qed.

Lemma declaring_paths_cons url n ns :
  declaring_paths url (n :: ns) = declaring_paths url [n] ++ declaring_paths url ns.
Proof. unfold declaring_paths. simpl. now rewrite app_nil_r. Qed.

Lemma visits_serviceURLs ns vv url :
  url <> "" ->
  url_paths (serviceURLs (visits ns vv)) url
  = url_paths (serviceURLs vv) url ++ declaring_paths url ns.
Proof.
  intros Hurl. revert vv. induction ns as [|n ns IH]; intros vv.
  - unfold declaring_paths. simpl. now rewrite app_nil_r.
  - rewrite visits_cons, IH, visit_serviceURLs by exact Hurl.
    rewrite (declaring_paths_cons url n ns). now rewrite app_assoc.
Qed.

Lemma walked_serviceURLs m url :
  url <> "" ->
  url_paths (serviceURLs (walked m)) url = declaring_paths url (traversal m).
Proof.
  intros Hurl. rewrite walked_visits, visits_serviceURLs by exact Hurl.
  rewrite configured_serviceURLs. unfold url_paths. now rewrite lookup_empty.
Qed.

(** *** No callback reports a duplicate source *)

Lemma field_errs_other url name path :
  Forall (other_error url) (field_errs (validateName name path)).
Proof.
  unfold validateName. destruct (NameIsDNS1035Label name true); simpl; repeat constructor.
Qed.

Lemma validatePipelines_other url pipelines path :
  Forall (other_error url) (validatePipelines pipelines path).
Proof.
  unfold validatePipelines. destruct pipelines as [p|]; [|constructor].
  destruct (Integration p) as [i|]; [|repeat constructor].
  induction (Bindings i) as [|b bs IH]; simpl; [constructor|].
  apply Forall_app. split; [apply field_errs_other | exact IH].
Qed.

Lemma validateWebhook_other url hook path :
  Forall (other_error url) (validateWebhook hook path).
Proof.
  unfold validateWebhook. destruct hook as [h|]; [|constructor].
  destruct (hook_Secret h) as [sec|]; [|repeat constructor].
  apply Forall_app. split; apply field_errs_other.
Qed.

Lemma validateConfigRepo_other url repo path :
  Forall (other_error url) (validateConfigRepo repo path).
Proof.
  unfold validateConfigRepo.
  destruct (String.eqb (repo_URL repo) ""), (String.eqb (repo_Path repo) "");
    simpl; repeat constructor.
Qed.

Lemma checkDuplicate_other url field path checkMap :
  Forall (other_error url) (opt_errs (checkDuplicate field path checkMap).2).
Proof.
  unfold checkDuplicate. destruct (checkMap !! path); simpl; repeat constructor.
Qed.

Lemma serviceRefs_other url names app appPath refs :
  Forall (other_error url) (flat_map (serviceRefCheck names app appPath) refs).
Proof.
  induction refs as [|r refs IH]; simpl; [constructor|].
  apply Forall_app. split; [|exact IH].
  unfold serviceRefCheck. destruct (names !! r); repeat constructor.
Qed.

Lemma visit_other url vv n :
  Forall (other_error url) (errs vv) -> Forall (other_error url) (errs (visit vv n)).
Proof.
  intros Hvv. destruct n as [env|env app|env svc]; unfold visit.
  - rewrite Environment_errs. repeat (apply Forall_app; split); try exact Hvv.
    + destruct (configNames vv !! env_Name env); repeat constructor.
    + apply checkDuplicate_other.
    + apply field_errs_other.
    + apply validatePipelines_other.
  - rewrite Application_errs. unfold Application_front.
    repeat (apply Forall_app; split); try exact Hvv.
    + apply checkDuplicate_other.
    + apply field_errs_other.
    + destruct (_ && _); repeat constructor.
    + destruct (_ && _); repeat constructor.
    + destruct (app_ConfigRepo app); [apply validateConfigRepo_other | constructor].
    + apply serviceRefs_other.
  - rewrite Service_errs. repeat (apply Forall_app; split); try exact Hvv.
    + apply checkDuplicate_other.
    + apply field_errs_other.
    + apply validateWebhook_other.
    + apply validatePipelines_other.
Qed.

Lemma visits_other url ns vv :
  Forall (other_error url) (errs vv) -> Forall (other_error url) (errs (visits ns vv)).
Proof.
  revert vv. induction ns as [|n ns IH]; intros vv Hvv; [exact Hvv|].
  rewrite visits_cons. apply IH. now apply visit_other.
Qed.

Lemma walked_other url m : Forall (other_error url) (errs (walked m)).
Proof.
  rewrite walked_visits. apply visits_other. rewrite configured_errs.
  unfold vv_validateConfig. destruct (man_Config m) as [cfg|]; [|constructor].
  destruct (cfg_ArgoCDConfig cfg), (cfg_PipelineConfig cfg); simpl;
    repeat (apply Forall_app; split); try apply field_errs_other; constructor.
Qed.

Lemma filter_other url l :
  Forall (other_error url) l -> List.filter (is_duplicate_source url) l = [].
Proof.
  induction 1 as [|e l He _ IH]; [reflexivity|].
  simpl. unfold other_error in He. now rewrite He.
Qed.

(** *** One error per duplicated URL *)

Lemma filter_perm {A} (f : A -> bool) (l1 l2 : list A) :
  l1 ≡ₚ l2 -> List.filter f l1 ≡ₚ List.filter f l2.
Proof.
  induction 1 as [|x l1 l2 _ IH|x y l|l1 l2 l3 _ IH1 _ IH2]; simpl.
  - reflexivity.
  - destruct (f x); [now constructor | exact IH].
  - destruct (f x), (f y); try reflexivity. apply perm_swap.
  - now transitivity (List.filter f l2).
Qed.

Lemma filter_key_unique {V} (l : list (string * V)) k v :
  NoDup (l.*1) -> (k, v) ∈ l ->
  List.filter (fun entry => String.eqb entry.1 k) l = [(k, v)].
Proof.
  induction l as [|[k' v'] l IH]; intros Hnd Hin; [inversion Hin|].
  simpl in Hnd. apply NoDup_cons in Hnd as [Hk' Hnd].
  simpl. destruct (String.eqb_spec k' k) as [->|Hne].
  - assert (v' = v) as ->.
    { apply elem_of_cons in Hin as [[= ->]|Hin]; [reflexivity|].
      exfalso. apply Hk'. apply list_elem_of_fmap. exists (k, v). auto. }
    f_equal. clear IH Hin. induction l as [|[k2 v2] l IH]; [reflexivity|].
    simpl in *. apply not_elem_of_cons in Hk' as [Hk2 Hk'].
    apply NoDup_cons in Hnd as [_ Hnd].
    destruct (String.eqb_spec k2 k) as [->|_]; [congruence | now apply IH].
  - apply elem_of_cons in Hin as [[= -> ->]|Hin]; [congruence|]. now apply IH.
Qed.

Lemma is_duplicate_source_eqb url k paths :
  is_duplicate_source url (FieldErr (duplicateSourceError k paths)) = String.eqb k url.
Proof. reflexivity. Qed.

Lemma validateServiceURLs_range_cons k paths entries :
  validateServiceURLs_range ((k, paths) :: entries)
  = (if (1 <? length paths)%nat then [FieldErr (duplicateSourceError k paths)] else [])
    ++ validateServiceURLs_range entries.
Proof. reflexivity. Qed.

Lemma validateServiceURLs_range_filter url entries :
  List.filter (is_duplicate_source url) (validateServiceURLs_range entries)
  = validateServiceURLs_range (List.filter (fun entry => String.eqb entry.1 url) entries).
Proof.
  induction entries as [|[k paths] entries IH]; [reflexivity|].
  rewrite validateServiceURLs_range_cons, List.filter_app, IH.
  cbn [List.filter fst].
  destruct (1 <? length paths)%nat eqn:Hlen.
  - cbn [List.filter]. rewrite is_duplicate_source_eqb.
    destruct (String.eqb k url); [|reflexivity].
    now rewrite validateServiceURLs_range_cons, Hlen.
  - destruct (String.eqb k url); [|reflexivity].
    now rewrite validateServiceURLs_range_cons, Hlen.
Qed.

Lemma validateServiceURLs_one (urls : gmap string (list string)) url paths entries :
  map_range urls entries ->
  urls !! url = Some paths ->
  1 < length paths ->
  List.filter (is_duplicate_source url) (validateServiceURLs_range entries)
  = [FieldErr (duplicateSourceError url paths)].
Proof.
  intros Hrange Hlook Hlen.
  rewrite validateServiceURLs_range_filter.
  assert (List.filter (fun entry : string * list string => String.eqb entry.1 url) entries
          = [(url, paths)]) as ->.
  { apply Permutation_length_1_inv.
    rewrite <- (filter_key_unique (map_to_list urls) url paths).
    - symmetry. now apply filter_perm.
    - apply NoDup_fst_map_to_list.
    - now apply elem_of_map_to_list. }
  unfold validateServiceURLs_range. simpl.
  destruct (Nat.ltb_spec 1 (length paths)); [reflexivity | lia].
Qed.

(** C3: when the services visited by the walk declare the non-empty
    [url] twice or more, every run of [Validate] returns the errors of the
    config check and of the walk, none of which is a duplicate-source error
    for [url], followed by the errors of the deferred check, exactly one of
    which is a duplicate-source error for [url]; its paths are the paths of
    all the declaring services. *)
Theorem C3_one_duplicate_source_error (m : Manifest) (url : string) :
  url <> "" ->
  2 <= length (declaring_paths url (traversal m)) ->
  (exists result, Validate m result)
  /\ forall result, Validate m result ->
       exists urlErrs,
         result = Some (multierror_Join (errs (walked m) ++ urlErrs))
         /\ vv_validateServiceURLs (walked m) urlErrs
         /\ List.filter (is_duplicate_source url) (errs (walked m)) = []
         /\ List.filter (is_duplicate_source url) urlErrs
            = [FieldErr {| Message := "duplicate source " +:+ url;
                           Details := "";
                           Paths := declaring_paths url (traversal m) |}].
Proof.
  intros Hurl Hlen. split; [apply Validate_total|].
  intros result (urlErrs & Hurls & ->). exists urlErrs.
  assert (List.filter (is_duplicate_source url) urlErrs
          = [FieldErr (duplicateSourceError url (declaring_paths url (traversal m)))])
    as Hone.
  { destruct Hurls as (entries & Hrange & ->).
    apply validateServiceURLs_one with (urls := serviceURLs (walked m)); [exact Hrange| |lia].
    pose proof (walked_serviceURLs m url Hurl) as Hpaths. unfold url_paths in Hpaths.
    destruct (serviceURLs (walked m) !! url) as [paths|]; simpl in Hpaths.
    - now rewrite Hpaths.
    - rewrite <- Hpaths in Hlen. simpl in Hlen. lia. }
  split; [|split; [exact Hurls|split; [apply filter_other, walked_other | exact Hone]]].
  apply joined_nonempty
    with (e := FieldErr (duplicateSourceError url (declaring_paths url (traversal m)))).
  apply elem_of_app; right.
  apply list_elem_of_In. apply (proj1 (filter_In (is_duplicate_source url) _ urlErrs)).
  rewrite Hone. now left.
Qed.

(** ** The oneOf rule of applications *)

Lemma append_neq_self (s t : string) : t <> "" -> s <> s +:+ t.
Proof.
  intros Ht. induction s as [|c s IH]; simpl.
  - intros H. now apply Ht.
  - intros [= H]. now apply IH.
Qed.

Lemma count_occ_absent (l : list error) (x : error) :
  Forall (fun e => e <> x) l -> count_occ error_eq_dec l x = 0.
Proof.
  intros H. apply count_occ_not_In. intros Hin.
  rewrite Forall_forall in H. apply list_elem_of_In in Hin. now apply (H x).
Qed.

(** The errors of the other checks of the callback are neither the
    missing-fields error at the application's path nor an error with the
    message of [ErrMultipleOneOf]. *)
Lemma Application_other_checks vv env app (x : error) :
  (x = FieldErr (missingFieldsError ["services"; "config_repo"]
                   [yamlPath (PathForApplication env app)])
   \/ exists paths, x = FieldErr (ErrMultipleOneOf paths)) ->
  Forall (fun e => e <> x)
    (opt_errs (checkDuplicate (app_Name app) (yamlPath (PathForApplication env app))
                 (appNames vv)).2
     ++ field_errs (validateName (app_Name app) (yamlPath (PathForApplication env app)))
     ++ match app_ConfigRepo app with
        | Some repo =>
            validateConfigRepo repo
              (yamlJoin (yamlPath (PathForApplication env app)) ["config_repo"])
        | None => []
        end
     ++ flat_map (serviceRefCheck (serviceNames vv) app
                    (yamlPath (PathForApplication env app)))
          (app_ServiceRefs app)).
Proof using Quote NameIsDNS1035Label PathForApplication.
  intros Hx. repeat (apply Forall_app; split).
  - unfold checkDuplicate. destruct (appNames vv !! _); simpl; repeat constructor.
    destruct Hx as [->|[paths ->]]; discriminate.
  - unfold validateName. destruct (NameIsDNS1035Label _ _); simpl; repeat constructor.
    destruct Hx as [->|[paths ->]]; discriminate.
  - destruct (app_ConfigRepo app) as [repo|]; [|constructor].
    unfold validateConfigRepo.
    destruct (String.eqb (repo_URL repo) ""), (String.eqb (repo_Path repo) "");
      simpl; repeat constructor;
      (destruct Hx as [->|[paths ->]]; [|discriminate]);
      intros [= _ Hpath]; revert Hpath; apply not_eq_sym, append_neq_self; discriminate.
  - induction (app_ServiceRefs app) as [|r refs IH]; simpl; [constructor|].
    apply Forall_app. split; [|exact IH].
    unfold serviceRefCheck. destruct (serviceNames vv !! r); repeat constructor.
    destruct Hx as [->|[paths ->]]; discriminate.
Qed.

(** C4: among the errors that the [Application] callback appends, the
    missing-fields error for "services" and "config_repo" occurs once when
    the application has neither service references nor a config repository
    and not at all otherwise; the multiple-one-of error occurs once when it
    has both and not at all otherwise; so at most one of the two is appended,
    and never both. *)
Theorem C4_application_oneOf (vv : validateVisitor) (env : Environment) (app : Application) :
  exists emitted,
    errs (vv_Application vv env app).1 = errs vv ++ emitted
    /\ count_occ error_eq_dec emitted
         (FieldErr {| Message := "missing field(s) " +:+ Quote "services"
                                 +:+ "," +:+ Quote "config_repo";
                      Details := "";
                      Paths := [yamlPath (PathForApplication env app)] |})
       = (if bool_decide (app_ServiceRefs app = [] /\ app_ConfigRepo app = None)
          then 1 else 0)
    /\ count_occ error_eq_dec emitted
         (FieldErr {| Message := "expected exactly one, got both";
                      Details := "";
                      Paths := [yamlPath (PathForApplication env app) +:+ ".services";
                                yamlPath (PathForApplication env app) +:+ ".config_repo"] |})
       = (if bool_decide (app_ServiceRefs app <> [] /\ app_ConfigRepo app <> None)
          then 1 else 0)
    /\ count_occ error_eq_dec emitted
         (FieldErr {| Message := "missing field(s) " +:+ Quote "services"
                                 +:+ "," +:+ Quote "config_repo";
                      Details := "";
                      Paths := [yamlPath (PathForApplication env app)] |})
       + count_occ error_eq_dec emitted
           (FieldErr {| Message := "expected exactly one, got both";
                        Details := "";
                        Paths := [yamlPath (PathForApplication env app) +:+ ".services";
                                  yamlPath (PathForApplication env app) +:+ ".config_repo"] |})
       <= 1.
Proof using Quote NameIsDNS1035Label PathForApplication.
  set (appPath := yamlPath (PathForApplication env app)).
  set (missing := FieldErr {| Message := "missing field(s) " +:+ Quote "services"
                                         +:+ "," +:+ Quote "config_repo";
                              Details := ""; Paths := [appPath] |}).
  set (multiple := FieldErr {| Message := "expected exactly one, got both";
                               Details := "";
                               Paths := [appPath +:+ ".services";
                                         appPath +:+ ".config_repo"] |}).
  eexists. split; [apply Application_errs|].
  assert (Hmissing : missing = FieldErr (missingFieldsError ["services"; "config_repo"]
                                           [appPath])) by reflexivity.
  assert (Hmultiple : exists paths, multiple = FieldErr (ErrMultipleOneOf paths))
    by (eexists; reflexivity).
  pose proof (Application_other_checks vv env app missing (or_introl Hmissing)) as H1.
  pose proof (Application_other_checks vv env app multiple (or_intror Hmultiple)) as H2.
  fold appPath in H1, H2.
  apply Forall_app in H1 as [H1a H1]. apply Forall_app in H1 as [H1b H1].
  apply Forall_app in H1 as [H1c H1d].
  apply Forall_app in H2 as [H2a H2]. apply Forall_app in H2 as [H2b H2].
  apply Forall_app in H2 as [H2c H2d].
  assert (missing <> multiple) as Hne by discriminate.
  unfold Application_front. fold appPath.
  rewrite !count_occ_app.
  rewrite (count_occ_absent _ _ H1a), (count_occ_absent _ _ H1b),
    (count_occ_absent _ _ H1c), (count_occ_absent _ _ H1d),
    (count_occ_absent _ _ H2a), (count_occ_absent _ _ H2b),
    (count_occ_absent _ _ H2c), (count_occ_absent _ _ H2d).
  destruct (app_ServiceRefs app) as [|r refs], (app_ConfigRepo app) as [repo|];
    cbn [length Nat.eqb Nat.ltb Nat.leb andb];
    repeat match goal with
      | |- context [bool_decide ?P] =>
          first [ rewrite (bool_decide_eq_true_2 P) by (repeat split; congruence)
                | rewrite (bool_decide_eq_false_2 P)
                    by (let H := fresh in intros H; try destruct H; congruence) ]
      end;
    cbn [andb];
    change (FieldErr (missingFieldsError ["services"; "config_repo"] [appPath]))
      with missing;
    change (FieldErr (ErrMultipleOneOf
                        [yamlJoin appPath ["services"]; yamlJoin appPath ["config_repo"]]))
      with multiple;
    repeat first
      [ rewrite count_occ_cons_eq by reflexivity
      | rewrite count_occ_cons_neq by first [exact Hne | exact (not_eq_sym Hne)] ];
    rewrite ?count_occ_nil; repeat split; lia.
Qed.

(** ** Name validation *)

Lemma validateName_accepts name path :
  validateName name path = None <-> NameIsDNS1035Label name true = [].
Proof.
  unfold validateName. destruct (NameIsDNS1035Label name true); split; congruence.
Qed.

Lemma validateName_rejects name path :
  NameIsDNS1035Label name true <> [] ->
  exists reason,
    head (NameIsDNS1035Label name true) = Some reason
    /\ validateName name path
       = Some {| Message := "invalid name " +:+ Quote name;
                 Details := reason;
                 Paths := [path] |}.
Proof.
  unfold validateName. destruct (NameIsDNS1035Label name true) as [|reason rest];
    [congruence|].
  intros _. exists reason. split; reflexivity.
Qed.

(** ** Further properties of the helper checks *)

Lemma checkDuplicate_dom field path checkMap :
  dom (checkDuplicate field path checkMap).1 = dom checkMap ∪ {[path]}.
Proof.
  unfold checkDuplicate. destruct (checkMap !! path) as [b|] eqn:E; simpl.
  - assert (path ∈ dom checkMap) by (apply elem_of_dom; eauto).
    apply set_eq. intros k. rewrite elem_of_union, elem_of_singleton.
    split; [auto|]. intros [Hk| ->]; assumption.
  - rewrite dom_insert_L. apply set_eq. intros k.
    rewrite !elem_of_union, elem_of_singleton. tauto.
Qed.

(** X7: [checkDuplicate] reports a duplicate exactly when the path is
    already a key of the registry; in either case the path is a key
    afterwards, no other key is added, and the entries that were there keep
    their values. *)
Theorem checkDuplicate_reports_iff (field path : string) (checkMap : gmap string bool) :
  ((checkDuplicate field path checkMap).2 = None <-> checkMap !! path = None)
  /\ dom (checkDuplicate field path checkMap).1 = dom checkMap ∪ {[path]}
  /\ (forall k, is_Some (checkMap !! k) ->
        (checkDuplicate field path checkMap).1 !! k = checkMap !! k).
Proof.
  split; [|split; [apply checkDuplicate_dom|]].
  - unfold checkDuplicate. destruct (checkMap !! path) as [b|] eqn:E; simpl;
      split; (reflexivity || discriminate).
  - unfold checkDuplicate. destruct (checkMap !! path) as [b|] eqn:E; simpl;
      [reflexivity|].
    intros k [v Hk]. rewrite lookup_insert_ne; [reflexivity|]. congruence.
Qed.

(** X8: once a path went through [checkDuplicate], every further check of
    that path reports the duplicate-field error for the field it is given
    and leaves the registry as it is. *)
Theorem checkDuplicate_twice (field field' path : string) (checkMap : gmap string bool) :
  checkDuplicate field' path (checkDuplicate field path checkMap).1
  = ((checkDuplicate field path checkMap).1,
     Some (FieldErr {| Message := "duplicate field(s) " +:+ Quote field';
                       Details := "";
                       Paths := [path] |})).
Proof.
  apply (checkDuplicate_seen field' path). apply checkDuplicate_registers.
Qed.

(** X9: [validateConfigRepo] returns no error exactly when URL and Path
    are both non-empty; otherwise it returns one missing-fields error at the
    given path, whose fields are "url" if the URL is empty and "path" if the
    Path is empty. *)
Theorem validateConfigRepo_complete_iff (repo : Repository) (path : string) :
  (validateConfigRepo repo path = [] <-> repo_URL repo <> "" /\ repo_Path repo <> "")
  /\ (validateConfigRepo repo path = []
      \/ exists fields,
           validateConfigRepo repo path = [FieldErr (missingFieldsError fields [path])]
           /\ ("url" ∈ fields <-> repo_URL repo = "")
           /\ ("path" ∈ fields <-> repo_Path repo = "")
           /\ fields ⊆ ["url"; "path"]).
Proof.
  unfold validateConfigRepo.
  destruct (String.eqb_spec (repo_URL repo) "") as [Hu|Hu],
           (String.eqb_spec (repo_Path repo) "") as [Hp|Hp]; simpl.
  - split; [split; [discriminate|tauto]|]. right. exists ["url"; "path"].
    split; [reflexivity|]. split; [|split].
    + split; [auto | intros _; left].
    + split; [auto | intros _; right; left].
    + intros x Hx. exact Hx.
  - split; [split; [discriminate|tauto]|]. right. exists ["url"].
    split; [reflexivity|]. split; [|split].
    + split; [auto | intros _; left].
    + split; [|contradiction]. intros Hin. apply list_elem_of_singleton in Hin.
      discriminate Hin.
    + intros x Hx. apply list_elem_of_singleton in Hx. subst x. left.
  - split; [split; [discriminate|tauto]|]. right. exists ["path"].
    split; [reflexivity|]. split; [|split].
    + split; [|contradiction]. intros Hin. apply list_elem_of_singleton in Hin.
      discriminate Hin.
    + split; [auto | intros _; left].
    + intros x Hx. apply list_elem_of_singleton in Hx. subst x. right. left.
  - split; [split; auto|]. now left.
Qed.

Lemma field_errs_nil name path :
  field_errs (validateName name path) = [] <-> name_ok name = true.
Proof.
  unfold validateName, name_ok, field_errs.
  destruct (NameIsDNS1035Label name true); simpl;
    split; intros H; try reflexivity; discriminate H.
Qed.

Lemma field_errs_length name path :
  length (field_errs (validateName name path)) = if name_ok name then 0 else 1.
Proof.
  unfold validateName, name_ok. now destruct (NameIsDNS1035Label name true).
Qed.

(** X10: [validateWebhook] returns no error exactly when there is no
    webhook, or the webhook has a secret whose name and namespace both pass
    the label check; a webhook without secret gives one missing-fields error
    for "secret" at the webhook's path, and a webhook with a secret gives one
    error for each of the two names that fails. *)
Theorem validateWebhook_valid_iff (hook : option Webhook) (path : string) :
  (validateWebhook hook path = []
   <-> hook = None
       \/ exists h secret,
            hook = Some h /\ hook_Secret h = Some secret
            /\ name_ok (secret_Name secret) = true
            /\ name_ok (secret_Namespace secret) = true)
  /\ (forall h, hook = Some h -> hook_Secret h = None ->
        validateWebhook hook path
        = [FieldErr (missingFieldsError ["secret"] [path +:+ ".webhook"])])
  /\ (forall h secret, hook = Some h -> hook_Secret h = Some secret ->
        length (validateWebhook hook path)
        = (if name_ok (secret_Name secret) then 0 else 1)
          + (if name_ok (secret_Namespace secret) then 0 else 1)).
Proof.
  destruct hook as [h|].
  2:{ split; [split; [auto|reflexivity]|]. split; discriminate. }
  unfold validateWebhook. destruct (hook_Secret h) as [secret|] eqn:Hs.
  - split; [|split].
    + split.
      * intros H. apply app_eq_nil in H as [H1 H2].
        apply field_errs_nil in H1. apply field_errs_nil in H2.
        right. exists h, secret. auto.
      * intros [H|(h' & secret' & Hh & Hs' & H1 & H2)]; [discriminate H|].
        assert (h' = h) by congruence. subst h'.
        assert (secret' = secret) by congruence. subst secret'.
        apply (field_errs_nil _ (yamlJoin path ["webhook"; "secret"; "name"])) in H1.
        apply (field_errs_nil _ (yamlJoin path ["webhook"; "secret"; "namespace"])) in H2.
        now rewrite H1, H2.
    + intros h' Hh H. assert (h' = h) by congruence. subst h'. congruence.
    + intros h' secret' Hh Hs'.
      assert (h' = h) by congruence. subst h'.
      assert (secret' = secret) by congruence. subst secret'.
      now rewrite length_app, !field_errs_length.
  - split; [|split].
    + split; [discriminate|].
      intros [H|(h' & secret' & Hh & Hs' & _)]; [discriminate H|].
      assert (h' = h) by congruence. subst h'. congruence.
    + intros h' _ _. reflexivity.
    + intros h' secret' Hh Hs'. assert (h' = h) by congruence. subst h'. congruence.
Qed.

Lemma bindings_errs_length path bindings :
  length (flat_map (fun name => field_errs (validateName name path)) bindings)
  = length (List.filter (fun name => negb (name_ok name)) bindings).
Proof.
  induction bindings as [|b bs IH]; [reflexivity|].
  cbn [flat_map List.filter]. rewrite length_app, field_errs_length, IH.
  now destruct (name_ok b).
Qed.

(** X11: [validatePipelines] returns no error exactly when there is no
    pipelines block, or the block has an integration all of whose bindings
    pass the label check; a block without integration gives one
    missing-fields error for "integration" at the block's path, and a block
    with an integration gives one error for each binding that fails. *)
Theorem validatePipelines_valid_iff (pipelines : option Pipelines) (path : string) :
  (validatePipelines pipelines path = []
   <-> pipelines = None
       \/ exists p integration,
            pipelines = Some p /\ Integration p = Some integration
            /\ Forall (fun name => name_ok name = true) (Bindings integration))
  /\ (forall p, pipelines = Some p -> Integration p = None ->
        validatePipelines pipelines path
        = [FieldErr (missingFieldsError ["integration"] [path +:+ ".pipelines"])])
  /\ (forall p integration, pipelines = Some p -> Integration p = Some integration ->
        length (validatePipelines pipelines path)
        = length (List.filter (fun name => negb (name_ok name)) (Bindings integration))).
Proof.
  destruct pipelines as [p|].
  2:{ split; [split; [auto|reflexivity]|]. split; discriminate. }
  unfold validatePipelines. destruct (Integration p) as [integration|] eqn:Hi.
  - assert (forall bs,
              flat_map (fun name => field_errs (validateName name
                          (yamlJoin path ["pipelines"; "integration"; "binding"]))) bs = []
              <-> Forall (fun name => name_ok name = true) bs) as Hall.
    { induction bs as [|b bs IH]; cbn [flat_map].
      - split; [constructor | reflexivity].
      - rewrite Forall_cons, <- IH,
          <- (field_errs_nil b (yamlJoin path ["pipelines"; "integration"; "binding"])).
        split.
        + intros H. now apply app_eq_nil in H.
        + intros [H1 H2]. now rewrite H1, H2. }
    split; [|split].
    + rewrite Hall. split.
      * intros H. right. exists p, integration. auto.
      * intros [H|(p' & i' & Hp & Hi' & H)]; [discriminate H|].
        assert (p' = p) by congruence. subst p'.
        assert (i' = integration) by congruence. now subst i'.
    + intros p' Hp H. assert (p' = p) by congruence. subst p'. congruence.
    + intros p' i' Hp Hi'.
      assert (p' = p) by congruence. subst p'.
      assert (i' = integration) by congruence. subst i'.
      apply bindings_errs_length.
  - split; [|split].
    + split; [discriminate|].
      intros [H|(p' & i' & Hp & Hi' & _)]; [discriminate H|].
      assert (p' = p) by congruence. subst p'. congruence.
    + intros p' _ _. reflexivity.
    + intros p' i' Hp Hi'. assert (p' = p) by congruence. subst p'. congruence.
Qed.

(** ** What the registries hold, and when a duplicate is reported *)

Lemma visits_snoc ns n vv : visits (ns ++ [n]) vv = visit (visits ns vv) n.
Proof. now rewrite visits_app. Qed.

Lemma flat_map_snoc {A B} (f : A -> list B) (l : list A) (x : A) :
  flat_map f (l ++ [x]) = flat_map f l ++ f x.
Proof. rewrite flat_map_app. simpl. now rewrite app_nil_r. Qed.

Lemma visits_envNames_dom ns vv :
  dom (envNames (visits ns vv)) = dom (envNames vv) ∪ list_to_set (env_paths ns).
Proof.
  induction ns as [|n ns IH] using rev_ind.
  - simpl. apply set_eq. intros k. rewrite elem_of_union, elem_of_empty. tauto.
  - rewrite visits_snoc. unfold env_paths. rewrite flat_map_snoc. fold (env_paths ns).
    rewrite list_to_set_app_L. destruct n as [env|env app|env svc]; unfold visit.
    + rewrite Environment_envNames, checkDuplicate_dom, IH. simpl.
      apply set_eq. intros k.
      rewrite !elem_of_union, !elem_of_singleton, elem_of_empty. tauto.
    + destruct (Application_frame (visits ns vv) env app) as (_ & -> & _).
      rewrite IH. simpl. apply set_eq. intros k.
      rewrite !elem_of_union, elem_of_empty. tauto.
    + destruct (Service_frame (visits ns vv) env svc) as (_ & ->).
      rewrite IH. simpl. apply set_eq. intros k.
      rewrite !elem_of_union, elem_of_empty. tauto.
Qed.

Lemma Application_appNames vv env app :
  appNames (vv_Application vv env app).1
  = (checkDuplicate (app_Name app) (yamlPath (PathForApplication env app)) (appNames vv)).1.
Proof using Quote NameIsDNS1035Label PathForApplication.
  unfold vv_Application.
  destruct (app_ServiceRefs app) as [|r refs]; destruct (app_ConfigRepo app) as [repo|];
    reflexivity.
Qed.

Lemma Environment_appNames vv env : appNames (vv_Environment vv env).1 = appNames vv.
Proof. unfold vv_Environment. now destruct (configNames vv !! env_Name env). Qed.

Lemma Service_appNames vv env svc : appNames (vv_Service vv env svc).1 = appNames vv.
Proof. unfold vv_Service. now destruct (String.eqb (svc_SourceURL svc) ""). Qed.

Lemma visits_appNames_dom ns vv :
  dom (appNames (visits ns vv)) = dom (appNames vv) ∪ list_to_set (app_paths ns).
Proof.
  induction ns as [|n ns IH] using rev_ind.
  - simpl. apply set_eq. intros k. rewrite elem_of_union, elem_of_empty. tauto.
  - rewrite visits_snoc. unfold app_paths. rewrite flat_map_snoc. fold (app_paths ns).
    rewrite list_to_set_app_L. destruct n as [env|env app|env svc]; unfold visit.
    + rewrite Environment_appNames, IH. simpl. apply set_eq. intros k.
      rewrite !elem_of_union, elem_of_empty. tauto.
    + rewrite Application_appNames, checkDuplicate_dom, IH. simpl.
      apply set_eq. intros k.
      rewrite !elem_of_union, !elem_of_singleton, elem_of_empty. tauto.
    + rewrite Service_appNames, IH. simpl. apply set_eq. intros k.
      rewrite !elem_of_union, elem_of_empty. tauto.
Qed.

Lemma visits_serviceNames_dom ns vv :
  dom (serviceNames (visits ns vv))
  = dom (serviceNames vv) ∪ list_to_set (service_keys ns).
Proof.
  induction ns as [|n ns IH] using rev_ind.
  - simpl. apply set_eq. intros k. rewrite elem_of_union, elem_of_empty. tauto.
  - rewrite visits_snoc. unfold service_keys. rewrite flat_map_snoc. fold (service_keys ns).
    rewrite list_to_set_app_L. destruct n as [env|env app|env svc]; unfold visit.
    + destruct (Environment_frame (visits ns vv) env) as (_ & -> & _).
      rewrite IH. simpl. apply set_eq. intros k.
      rewrite !elem_of_union, elem_of_empty. tauto.
    + destruct (Application_frame (visits ns vv) env app) as (_ & _ & -> & _).
      rewrite IH. simpl. apply set_eq. intros k.
      rewrite !elem_of_union, elem_of_empty. tauto.
    + rewrite Service_serviceNames, dom_insert_L, checkDuplicate_dom, IH. simpl.
      apply set_eq. intros k.
      rewrite !elem_of_union, !elem_of_singleton, elem_of_empty. tauto.
Qed.

(** The errors of the other checks do not bear the message of a
    duplicate-field error. *)
Lemma field_errs_not_duplicate name path :
  List.filter is_duplicate_field (field_errs (validateName name path)) = [].
Proof.
  unfold validateName. now destruct (NameIsDNS1035Label name true).
Qed.

Lemma validatePipelines_not_duplicate pipelines path :
  List.filter is_duplicate_field (validatePipelines pipelines path) = [].
Proof.
  unfold validatePipelines. destruct pipelines as [p|]; [|reflexivity].
  destruct (Integration p) as [i|]; [|reflexivity].
  induction (Bindings i) as [|b bs IH]; [reflexivity|].
  cbn [flat_map]. now rewrite List.filter_app, field_errs_not_duplicate, IH.
Qed.

Lemma validateWebhook_not_duplicate hook path :
  List.filter is_duplicate_field (validateWebhook hook path) = [].
Proof.
  unfold validateWebhook. destruct hook as [h|]; [|reflexivity].
  destruct (hook_Secret h) as [sec|]; [|reflexivity].
  now rewrite List.filter_app, !field_errs_not_duplicate.
Qed.

Lemma validateConfigRepo_not_duplicate repo path :
  List.filter is_duplicate_field (validateConfigRepo repo path) = [].
Proof.
  unfold validateConfigRepo.
  now destruct (String.eqb (repo_URL repo) ""), (String.eqb (repo_Path repo) "").
Qed.

Lemma serviceRefs_not_duplicate names app appPath refs :
  List.filter is_duplicate_field (flat_map (serviceRefCheck names app appPath) refs) = [].
Proof.
  induction refs as [|r refs IH]; [reflexivity|].
  cbn [flat_map]. rewrite List.filter_app, IH. unfold serviceRefCheck.
  now destruct (names !! r).
Qed.

Lemma checkDuplicate_filter field path checkMap :
  List.filter is_duplicate_field (opt_errs (checkDuplicate field path checkMap).2)
  = if bool_decide (path ∈ dom checkMap)
    then [FieldErr (duplicateFieldsError [field] [path])]
    else [].
Proof.
  unfold checkDuplicate. destruct (checkMap !! path) as [b|] eqn:E.
  - rewrite bool_decide_eq_true_2 by (apply elem_of_dom; eauto). reflexivity.
  - rewrite bool_decide_eq_false_2; [reflexivity|].
    rewrite elem_of_dom, E. intros [x Hx]. discriminate Hx.
Qed.

(** X12: among the errors that the [Environment] callback appends after
    the visits [pre], there is a duplicate-field error exactly when the
    environment's yaml path was in the registry at the start or is the path
    of an environment visited in [pre]; it is then the one error for the
    environment's name at that path. *)
Theorem Environment_duplicate_iff (vv : validateVisitor) (pre : list node)
    (env : Environment) :
  exists emitted,
    errs (vv_Environment (visits pre vv) env).1 = errs (visits pre vv) ++ emitted
    /\ List.filter is_duplicate_field emitted
       = if bool_decide (yamlPath (PathForEnvironment env)
                         ∈ dom (envNames vv) ∪ list_to_set (env_paths pre))
         then [FieldErr {| Message := "duplicate field(s) " +:+ Quote (env_Name env);
                           Details := "";
                           Paths := [yamlPath (PathForEnvironment env)] |}]
         else [].
Proof.
  eexists. split; [apply Environment_errs|].
  rewrite !List.filter_app, checkDuplicate_filter, field_errs_not_duplicate,
    validatePipelines_not_duplicate, visits_envNames_dom, visits_configNames.
  destruct (configNames vv !! env_Name env); simpl; now rewrite app_nil_r.
Qed.

(** X13: among the errors that the [Application] callback appends after
    the visits [pre], there is a duplicate-field error exactly when the
    application's yaml path was in the registry at the start or is the path
    of an application visited in [pre]. *)
Theorem Application_duplicate_iff (vv : validateVisitor) (pre : list node)
    (env : Environment) (app : Application) :
  exists emitted,
    errs (vv_Application (visits pre vv) env app).1 = errs (visits pre vv) ++ emitted
    /\ List.filter is_duplicate_field emitted
       = if bool_decide (yamlPath (PathForApplication env app)
                         ∈ dom (appNames vv) ∪ list_to_set (app_paths pre))
         then [FieldErr {| Message := "duplicate field(s) " +:+ Quote (app_Name app);
                           Details := "";
                           Paths := [yamlPath (PathForApplication env app)] |}]
         else [].
Proof.
  eexists. split; [apply Application_errs|]. unfold Application_front.
  rewrite !List.filter_app, checkDuplicate_filter, field_errs_not_duplicate,
    serviceRefs_not_duplicate, visits_appNames_dom.
  assert (List.filter is_duplicate_field
            match app_ConfigRepo app with
            | Some repo =>
                validateConfigRepo repo
                  (yamlJoin (yamlPath (PathForApplication env app)) ["config_repo"])
            | None => []
            end = []) as ->.
  { destruct (app_ConfigRepo app); [apply validateConfigRepo_not_duplicate | reflexivity]. }
  destruct (_ && _), (_ && _); simpl; now rewrite ?app_nil_r.
Qed.

(** X14: among the errors that the [Service] callback appends after the
    visits [pre], there is a duplicate-field error exactly when the service's
    yaml path was in the registry at the start or is the yaml path or the
    bare name of a service visited in [pre]. *)
Theorem Service_duplicate_iff (vv : validateVisitor) (pre : list node)
    (env : Environment) (svc : Service) :
  exists emitted,
    errs (vv_Service (visits pre vv) env svc).1 = errs (visits pre vv) ++ emitted
    /\ List.filter is_duplicate_field emitted
       = if bool_decide (yamlPath (PathForService env (svc_Name svc))
                         ∈ dom (serviceNames vv) ∪ list_to_set (service_keys pre))
         then [FieldErr {| Message := "duplicate field(s) " +:+ Quote (svc_Name svc);
                           Details := "";
                           Paths := [yamlPath (PathForService env (svc_Name svc))] |}]
         else [].
Proof.
  eexists. split; [apply Service_errs|].
  rewrite !List.filter_app, checkDuplicate_filter, field_errs_not_duplicate,
    validateWebhook_not_duplicate, validatePipelines_not_duplicate,
    visits_serviceNames_dom.
  now rewrite !app_nil_r.
Qed.

(** ** What an accepted manifest satisfies *)

Lemma Validate_None_errs m :
  Validate m None ->
  errs (walked m) = []
  /\ exists entries,
       map_range (serviceURLs (walked m)) entries
       /\ validateServiceURLs_range entries = [].
Proof.
  intros (urlErrs & (entries & Hrange & ->) & Hres).
  symmetry in Hres. apply joined_None in Hres. apply app_eq_nil in Hres as [H1 H2].
  split; [exact H1|]. exists entries. auto.
Qed.

Lemma visits_nil_split pre n post vv :
  errs (visits (pre ++ n :: post) vv) = [] ->
  errs (visits pre vv) = [] /\ errs (visit (visits pre vv) n) = [].
Proof.
  rewrite visits_app, visits_cons. intros H.
  destruct (visits_errs post (visit (visits pre vv) n)) as [es1 H1].
  rewrite H1 in H. apply app_eq_nil in H as [H _].
  destruct (visit_errs (visits pre vv) n) as [es0 H0].
  split; [|exact H]. rewrite H0 in H. now apply app_eq_nil in H.
Qed.

(** Every node of an accepted manifest is visited in a state without
    errors and leaves it without errors. *)
Lemma accepted_node m n :
  Validate m None -> n ∈ traversal m ->
  exists pre post,
    traversal m = pre ++ n :: post
    /\ errs (visits pre (configured m)) = []
    /\ errs (visit (visits pre (configured m)) n) = [].
Proof.
  intros Hrun Hin. apply Validate_None_errs in Hrun as [Hw _].
  apply list_elem_of_split in Hin as (pre & post & Htr).
  exists pre, post. split; [exact Htr|].
  rewrite walked_visits, Htr in Hw. exact (visits_nil_split pre n post _ Hw).
Qed.

Lemma traversal_env m env :
  env ∈ man_Environments m -> EnvNode env ∈ traversal m.
Proof.
  intros Hin. destruct (traversal_split m env Hin) as (ns1 & ns2 & ->).
  apply elem_of_app; right. left.
Qed.

Lemma traversal_app m env app :
  env ∈ man_Environments m -> app ∈ env_Apps env -> AppNode env app ∈ traversal m.
Proof.
  intros Henv Happ. unfold traversal. apply list_elem_of_In, in_flat_map.
  exists env. split; [now apply list_elem_of_In|].
  unfold env_nodes. right. apply in_or_app. left.
  apply in_map. now apply list_elem_of_In.
Qed.

Lemma traversal_svc m env svc :
  env ∈ man_Environments m -> svc ∈ env_Services env -> SvcNode env svc ∈ traversal m.
Proof.
  intros Henv Hsvc. unfold traversal. apply list_elem_of_In, in_flat_map.
  exists env. split; [now apply list_elem_of_In|].
  unfold env_nodes. right. apply in_or_app. right.
  apply in_map. now apply list_elem_of_In.
Qed.

Lemma accepted_env m env :
  Validate m None -> env ∈ man_Environments m ->
  field_errs (validateName (env_Name env) (yamlPath (PathForEnvironment env))) = []
  /\ validatePipelines (env_Pipelines env) (yamlPath (PathForEnvironment env)) = [].
Proof.
  intros Hrun Hin.
  destruct (accepted_node m (EnvNode env) Hrun (traversal_env m env Hin))
    as (pre & post & _ & H0 & H1).
  unfold visit in H1. rewrite Environment_errs, H0 in H1. simpl in H1.
  apply app_eq_nil in H1 as [_ H1]. apply app_eq_nil in H1 as [_ H1].
  now apply app_eq_nil in H1.
Qed.

Lemma accepted_app m env app :
  Validate m None -> env ∈ man_Environments m -> app ∈ env_Apps env ->
  field_errs (validateName (app_Name app) (yamlPath (PathForApplication env app))) = []
  /\ ((length (app_ServiceRefs app) =? 0)%nat && bool_decide (app_ConfigRepo app = None)
      = false)
  /\ ((0 <? length (app_ServiceRefs app))%nat && bool_decide (app_ConfigRepo app <> None)
      = false)
  /\ match app_ConfigRepo app with
     | Some repo =>
         validateConfigRepo repo
           (yamlJoin (yamlPath (PathForApplication env app)) ["config_repo"])
     | None => []
     end = [].
Proof.
  intros Hrun Henv Happ.
  destruct (accepted_node m (AppNode env app) Hrun (traversal_app m env app Henv Happ))
    as (pre & post & _ & H0 & H1).
  unfold visit in H1. rewrite Application_errs, H0, app_nil_l in H1.
  apply app_eq_nil in H1 as [H1 _]. unfold Application_front in H1.
  apply app_eq_nil in H1 as [_ H1]. apply app_eq_nil in H1 as [Hname H1].
  apply app_eq_nil in H1 as [Hneither H1]. apply app_eq_nil in H1 as [Hboth Hrepo].
  split; [exact Hname|]. split; [|split; [|exact Hrepo]].
  - destruct ((length (app_ServiceRefs app) =? 0)%nat
              && bool_decide (app_ConfigRepo app = None));
      [discriminate Hneither | reflexivity].
  - destruct ((0 <? length (app_ServiceRefs app))%nat
              && bool_decide (app_ConfigRepo app <> None));
      [discriminate Hboth | reflexivity].
Qed.

Lemma accepted_svc m env svc :
  Validate m None -> env ∈ man_Environments m -> svc ∈ env_Services env ->
  field_errs (validateName (svc_Name svc) (yamlPath (PathForService env (svc_Name svc)))) = []
  /\ validateWebhook (svc_Webhook svc) (yamlPath (PathForService env (svc_Name svc))) = []
  /\ validatePipelines (svc_Pipelines svc) (yamlPath (PathForService env (svc_Name svc))) = [].
Proof.
  intros Hrun Henv Hsvc.
  destruct (accepted_node m (SvcNode env svc) Hrun (traversal_svc m env svc Henv Hsvc))
    as (pre & post & _ & H0 & H1).
  unfold visit in H1. rewrite Service_errs, H0 in H1. simpl in H1.
  apply app_eq_nil in H1 as [_ H1]. apply app_eq_nil in H1 as [Hname H1].
  apply app_eq_nil in H1 as [Hhook Hpipe]. auto.
Qed.

Lemma accepted_config m :
  Validate m None -> (vv_validateConfig new_validateVisitor m).2 = [].
Proof.
  intros Hrun. apply Validate_None_errs in Hrun as [Hw _].
  destruct (walked_errs m) as [walkErrs H]. rewrite Hw in H.
  symmetry in H. now apply app_eq_nil in H.
Qed.

(** X15: in a manifest that [Validate] accepts, the config names and the
    names of all environments, applications and services pass the label
    check. *)
Theorem accepted_names_valid (m : Manifest) :
  Validate m None ->
  (forall cfg, man_Config m = Some cfg ->
     (forall argo, cfg_ArgoCDConfig cfg = Some argo ->
        name_ok (argo_Namespace argo) = true)
     /\ (forall pipeline, cfg_PipelineConfig cfg = Some pipeline ->
           name_ok (pipeline_Name pipeline) = true))
  /\ forall env, env ∈ man_Environments m ->
       name_ok (env_Name env) = true
       /\ (forall app, app ∈ env_Apps env -> name_ok (app_Name app) = true)
       /\ (forall svc, svc ∈ env_Services env -> name_ok (svc_Name svc) = true).
Proof.
  intros Hrun. split.
  - intros cfg Hcfg. pose proof (accepted_config m Hrun) as H.
    unfold vv_validateConfig in H. rewrite Hcfg in H. simpl in H.
    apply app_eq_nil in H as [Ha Hp]. split.
    + intros argo Hargo. rewrite Hargo in Ha. simpl in Ha.
      now apply field_errs_nil in Ha.
    + intros pipeline Hpipe. rewrite Hpipe in Hp. simpl in Hp.
      now apply field_errs_nil in Hp.
  - intros env Henv. split; [|split].
    + destruct (accepted_env m env Hrun Henv) as [H _]. now apply field_errs_nil in H.
    + intros app Happ. destruct (accepted_app m env app Hrun Henv Happ) as (H & _).
      now apply field_errs_nil in H.
    + intros svc Hsvc. destruct (accepted_svc m env svc Hrun Henv Hsvc) as (H & _).
      now apply field_errs_nil in H.
Qed.

Lemma validateConfigRepo_nil repo path :
  validateConfigRepo repo path = [] -> repo_URL repo <> "" /\ repo_Path repo <> "".
Proof.
  unfold validateConfigRepo.
  destruct (String.eqb_spec (repo_URL repo) ""), (String.eqb_spec (repo_Path repo) "");
    simpl; intros H; try discriminate H. auto.
Qed.

(** X16: in a manifest that [Validate] accepts, every application has
    service references or a config repository and not both, and a config
    repository has a non-empty URL and a non-empty Path. *)
Theorem accepted_applications_oneOf (m : Manifest) :
  Validate m None ->
  forall env app, env ∈ man_Environments m -> app ∈ env_Apps env ->
    (app_ServiceRefs app = [] <-> app_ConfigRepo app <> None)
    /\ forall repo, app_ConfigRepo app = Some repo ->
         repo_URL repo <> "" /\ repo_Path repo <> "".
Proof.
  intros Hrun env app Henv Happ.
  destruct (accepted_app m env app Hrun Henv Happ) as (_ & Hneither & Hboth & Hrepo).
  split.
  - destruct (app_ServiceRefs app) as [|r refs], (app_ConfigRepo app) as [repo|];
      simpl in Hneither, Hboth; try discriminate; split; congruence.
  - intros repo Hsome. rewrite Hsome in Hrepo. now apply validateConfigRepo_nil in Hrepo.
Qed.

Lemma validatePipelines_nil pipelines path p :
  validatePipelines pipelines path = [] -> pipelines = Some p ->
  exists integration,
    Integration p = Some integration
    /\ Forall (fun name => name_ok name = true) (Bindings integration).
Proof.
  intros H ->. unfold validatePipelines in H.
  destruct (Integration p) as [integration|]; [|discriminate H].
  exists integration. split; [reflexivity|].
  induction (Bindings integration) as [|b bs IH]; [constructor|].
  cbn [flat_map] in H. apply app_eq_nil in H as [Hb Hbs].
  constructor; [now apply field_errs_nil in Hb | now apply IH].
Qed.

Lemma validateWebhook_nil hook path h :
  validateWebhook hook path = [] -> hook = Some h ->
  exists secret,
    hook_Secret h = Some secret
    /\ name_ok (secret_Name secret) = true
    /\ name_ok (secret_Namespace secret) = true.
Proof.
  intros H ->. unfold validateWebhook in H.
  destruct (hook_Secret h) as [secret|]; [|discriminate H].
  apply app_eq_nil in H as [H1 H2].
  apply field_errs_nil in H1. apply field_errs_nil in H2. eauto.
Qed.

(** X17: in a manifest that [Validate] accepts, every pipelines block of
    an environment or of a service has an integration whose bindings all
    pass the label check, and every webhook of a service has a secret whose
    name and namespace pass it. *)
Theorem accepted_blocks_complete (m : Manifest) :
  Validate m None ->
  forall env, env ∈ man_Environments m ->
    (forall p, env_Pipelines env = Some p ->
       exists integration,
         Integration p = Some integration
         /\ Forall (fun name => name_ok name = true) (Bindings integration))
    /\ forall svc, svc ∈ env_Services env ->
         (forall p, svc_Pipelines svc = Some p ->
            exists integration,
              Integration p = Some integration
              /\ Forall (fun name => name_ok name = true) (Bindings integration))
         /\ (forall h, svc_Webhook svc = Some h ->
               exists secret,
                 hook_Secret h = Some secret
                 /\ name_ok (secret_Name secret) = true
                 /\ name_ok (secret_Namespace secret) = true).
Proof.
  intros Hrun env Henv. split.
  - intros p Hp. destruct (accepted_env m env Hrun Henv) as [_ H].
    now apply (validatePipelines_nil _ _ p H).
  - intros svc Hsvc. destruct (accepted_svc m env svc Hrun Henv Hsvc) as (_ & Hhook & Hpipe).
    split.
    + intros p Hp. now apply (validatePipelines_nil _ _ p Hpipe).
    + intros h Hh. now apply (validateWebhook_nil _ _ h Hhook).
Qed.

(** X18: in a manifest that [Validate] accepts, every service reference
    of an application is the bare name or the yaml path of a service that the
    walk visits before the application. *)
Theorem accepted_references_resolved (m : Manifest) :
  Validate m None ->
  forall pre env app post,
    traversal m = pre ++ AppNode env app :: post ->
    forall r, r ∈ app_ServiceRefs app -> r ∈ service_keys pre.
Proof.
  intros Hrun pre env app post Htr r Hr.
  apply Validate_None_errs in Hrun as [Hw _].
  rewrite walked_visits, Htr in Hw.
  destruct (visits_nil_split pre _ post _ Hw) as [H0 H1].
  unfold visit in H1. rewrite Application_errs, H0, app_nil_l in H1.
  apply app_eq_nil in H1 as [_ H1].
  assert (serviceRefCheck (serviceNames (visits pre (configured m))) app
            (yamlPath (PathForApplication env app)) r = []) as Hcheck.
  { apply list_elem_of_In in Hr. revert H1 Hr.
    induction (app_ServiceRefs app) as [|r' refs IH]; [contradiction|].
    cbn [flat_map]. intros H [->|Hin]; apply app_eq_nil in H as [H1 H2];
      [exact H1 | now apply IH]. }
  unfold serviceRefCheck in Hcheck.
  destruct (serviceNames (visits pre (configured m)) !! r) as [b|] eqn:E;
    [|discriminate Hcheck].
  assert (r ∈ dom (serviceNames (visits pre (configured m)))) as Hdom
    by (apply elem_of_dom; eauto).
  rewrite visits_serviceNames_dom, configured_serviceNames, dom_empty_L in Hdom.
  apply elem_of_union in Hdom as [Hdom|Hdom]; [now apply elem_of_empty in Hdom|].
  now apply elem_of_list_to_set in Hdom.
Qed.

(** X19: in a manifest that [Validate] accepts, no non-empty source URL
    is declared by two services. *)
Theorem accepted_sources_distinct (m : Manifest) :
  Validate m None ->
  forall url, url <> "" -> length (declaring_paths url (traversal m)) <= 1.
Proof.
  intros Hrun url Hurl.
  apply Validate_None_errs in Hrun as (_ & entries & Hrange & Hnil).
  destruct (le_lt_dec (length (declaring_paths url (traversal m))) 1) as [Hle|Hgt];
    [exact Hle|]. exfalso.
  pose proof (walked_serviceURLs m url Hurl) as Hpaths. unfold url_paths in Hpaths.
  destruct (serviceURLs (walked m) !! url) as [paths|] eqn:Hlook; simpl in Hpaths.
  - assert (1 < length paths) as Hlen by (rewrite Hpaths; lia).
    pose proof (validateServiceURLs_one _ url paths entries Hrange Hlook Hlen) as Hone.
    rewrite Hnil in Hone. discriminate Hone.
  - rewrite <- Hpaths in Hgt. simpl in Hgt. lia.
Qed.

Lemma no_error_not_seen field path checkMap :
  opt_errs (checkDuplicate field path checkMap).2 = [] -> path ∉ dom checkMap.
Proof.
  unfold checkDuplicate. destruct (checkMap !! path) as [b|] eqn:E; simpl.
  - discriminate.
  - intros _. rewrite elem_of_dom, E. intros [x Hx]. discriminate Hx.
Qed.

Lemma NoDup_snoc {A} (l : list A) (x : A) : NoDup l -> x ∉ l -> NoDup (l ++ [x]).
Proof.
  intros Hl Hx. apply NoDup_app. split; [exact Hl|]. split.
  - intros y Hy Hyx. apply list_elem_of_singleton in Hyx. now subst.
  - apply NoDup_singleton.
Qed.

Lemma visits_no_error_paths ns vv :
  errs (visits ns vv) = [] ->
  (NoDup (env_paths ns) /\ forall k, k ∈ env_paths ns -> k ∉ dom (envNames vv))
  /\ (NoDup (app_paths ns) /\ forall k, k ∈ app_paths ns -> k ∉ dom (appNames vv))
  /\ (NoDup (service_paths ns)
      /\ forall k, k ∈ service_paths ns -> k ∉ dom (serviceNames vv)).
Proof.
  induction ns as [|n ns IH] using rev_ind.
  - intros _. repeat split; try apply NoDup_nil_2; intros k Hk; inversion Hk.
  - rewrite visits_snoc. intros H.
    destruct (visit_errs (visits ns vv) n) as [es Hes].
    assert (errs (visits ns vv) = []) as H0
      by (rewrite Hes in H; now apply app_eq_nil in H).
    destruct (IH H0) as ((He1 & He2) & (Ha1 & Ha2) & (Hs1 & Hs2)).
    unfold env_paths, app_paths, service_paths. rewrite !flat_map_snoc.
    fold (env_paths ns) (app_paths ns) (service_paths ns).
    destruct n as [env|env app|env svc]; unfold visit in H; simpl;
      rewrite ?app_nil_r.
    + split; [|auto].
      rewrite Environment_errs, H0 in H. simpl in H.
      apply app_eq_nil in H as [_ H]. apply app_eq_nil in H as [H _].
      apply no_error_not_seen in H. rewrite visits_envNames_dom in H.
      apply not_elem_of_union in H as [Hvv Hns].
      rewrite elem_of_list_to_set in Hns. split; [now apply NoDup_snoc|].
      intros k Hk. apply elem_of_app in Hk as [Hk|Hk]; [now apply He2|].
      apply list_elem_of_singleton in Hk. now subst.
    + split; [auto|]. split; [|auto].
      rewrite Application_errs, H0 in H. simpl in H.
      apply app_eq_nil in H as [H _]. unfold Application_front in H.
      apply app_eq_nil in H as [H _].
      apply no_error_not_seen in H. rewrite visits_appNames_dom in H.
      apply not_elem_of_union in H as [Hvv Hns].
      rewrite elem_of_list_to_set in Hns. split; [now apply NoDup_snoc|].
      intros k Hk. apply elem_of_app in Hk as [Hk|Hk]; [now apply Ha2|].
      apply list_elem_of_singleton in Hk. now subst.
    + split; [auto|]. split; [auto|].
      rewrite Service_errs, H0 in H. simpl in H.
      apply app_eq_nil in H as [H _].
      apply no_error_not_seen in H. rewrite visits_serviceNames_dom in H.
      apply not_elem_of_union in H as [Hvv Hns].
      rewrite elem_of_list_to_set in Hns.
      assert (yamlPath (PathForService env (svc_Name svc)) ∉ service_paths ns) as Hnot.
      { intros Hin. apply Hns. clear -Hin. unfold service_paths, service_keys in *.
        apply list_elem_of_In in Hin. apply list_elem_of_In.
        apply in_flat_map in Hin as (n & Hn & Hk). apply in_flat_map.
        exists n. split; [exact Hn|].
        destruct n as [e|e a|e s]; simpl in *; tauto. }
      split; [now apply NoDup_snoc|].
      intros k Hk. apply elem_of_app in Hk as [Hk|Hk]; [now apply Hs2|].
      apply list_elem_of_singleton in Hk. now subst.
Qed.

(** X20: in a manifest that [Validate] accepts, no two environments have
    the same yaml path, no two applications have, and no two services
    have. *)
Theorem accepted_paths_unique (m : Manifest) :
  Validate m None ->
  NoDup (env_paths (traversal m))
  /\ NoDup (app_paths (traversal m))
  /\ NoDup (service_paths (traversal m)).
Proof.
  intros Hrun. apply Validate_None_errs in Hrun as [Hw _].
  rewrite walked_visits in Hw.
  destruct (visits_no_error_paths _ _ Hw) as ((He & _) & (Ha & _) & (Hs & _)). auto.
Qed.

(** ** Services without source URL, and the config names *)

Lemma record_source_empty urls env svc :
  urls !! "" = None -> record_source urls env svc !! "" = None.
Proof.
  intros H. unfold record_source.
  destruct (String.eqb_spec (svc_SourceURL svc) "") as [_|Hne]; [exact H|].
  now rewrite lookup_insert_ne.
Qed.

Lemma visits_serviceURLs_empty ns vv :
  serviceURLs vv !! "" = None -> serviceURLs (visits ns vv) !! "" = None.
Proof.
  revert vv. induction ns as [|n ns IH]; intros vv H; [exact H|].
  rewrite visits_cons. apply IH. destruct n as [env|env app|env svc]; unfold visit.
  - now destruct (Environment_frame vv env) as (_ & _ & ->).
  - now destruct (Application_frame vv env app) as (_ & _ & _ & ->).
  - rewrite Service_serviceURLs. now apply record_source_empty.
Qed.

Lemma filter_key_absent {V} (urls : gmap string V) (entries : list (string * V)) k :
  map_range urls entries -> urls !! k = None ->
  List.filter (fun entry => String.eqb entry.1 k) entries = [].
Proof.
  intros Hrange Hk.
  assert (Forall (fun entry : string * V => entry.1 <> k) entries) as Hall.
  { apply Forall_forall. intros [k' v] Hin Heq. simpl in Heq. subst k'.
    unfold map_range in Hrange. rewrite Hrange in Hin.
    apply elem_of_map_to_list in Hin. congruence. }
  clear Hrange. induction Hall as [|[k' v] l Hne _ IH]; [reflexivity|].
  simpl in *. destruct (String.eqb_spec k' k); [contradiction | exact IH].
Qed.

(** X24: services without source URL are never reported as sharing one:
    no run of [Validate] returns a duplicate-source error for the empty
    URL. *)
Theorem empty_source_never_duplicate (m : Manifest) (result : option MultiError) :
  Validate m result ->
  List.filter (is_duplicate_source "")
    match result with
    | Some me => Errors me
    | None => []
    end = [].
Proof.
  intros (urlErrs & (entries & Hrange & ->) & ->).
  assert (List.filter (is_duplicate_source "")
            (errs (walked m) ++ validateServiceURLs_range entries) = []) as Hnone.
  { rewrite List.filter_app, (filter_other "" _ (walked_other "" m)),
      validateServiceURLs_range_filter.
    rewrite (filter_key_absent (serviceURLs (walked m)) entries "" Hrange);
      [reflexivity|].
    rewrite walked_visits. apply visits_serviceURLs_empty.
    rewrite configured_serviceURLs. apply lookup_empty. }
  unfold joined. destruct (errs (walked m) ++ validateServiceURLs_range entries);
    [reflexivity | exact Hnone].
Qed.

(** X25: the walk leaves the config-name registry alone: after it the
    registry holds the names of the Config block, the ArgoCD namespace and
    the pipeline name where present, and nothing else. *)
Theorem configNames_after_walk (m : Manifest) :
  dom (configNames (walked m)) = list_to_set (config_names m).
Proof.
  rewrite walked_visits, visits_configNames. unfold configured, config_names.
  simpl. unfold vv_validateConfig.
  destruct (man_Config m) as [cfg|]; [|apply dom_empty_L].
  destruct (cfg_ArgoCDConfig cfg) as [argo|], (cfg_PipelineConfig cfg) as [pipeline|];
    simpl; rewrite ?dom_insert_L, ?dom_empty_L; apply set_eq; intros k;
    rewrite ?elem_of_union, ?elem_of_singleton, ?elem_of_empty; tauto.
Qed.

(** ** The three sources of errors *)

Lemma visit_walk_errors vv n : errs (visit vv n) = errs vv ++ walk_errors [n] vv.
Proof.
  destruct (visit_errs vv n) as [es H]. cbn [walk_errors].
  rewrite H, drop_app_length. now rewrite app_nil_r.
Qed.

Lemma visits_walk_errors ns vv : errs (visits ns vv) = errs vv ++ walk_errors ns vv.
Proof.
  revert vv. induction ns as [|n ns IH]; intros vv.
  - simpl. now rewrite app_nil_r.
  - rewrite visits_cons, IH. cbn [walk_errors].
    destruct (visit_errs vv n) as [es H]. rewrite H, drop_app_length.
    now rewrite app_assoc.
Qed.

Lemma walked_walk_errors m :
  errs (walked m)
  = (vv_validateConfig new_validateVisitor m).2 ++ walk_errors (traversal m) (configured m).
Proof. now rewrite walked_visits, visits_walk_errors, configured_errs. Qed.

(** What a callback appends stays in [errs] to the end of the walk. *)
Lemma walk_error_kept m pre n post e :
  traversal m = pre ++ n :: post ->
  e ∈ walk_errors [n] (visits pre (configured m)) ->
  e ∈ errs (walked m).
Proof.
  intros Htr He. rewrite walked_visits, Htr, visits_app, visits_cons.
  apply visits_keeps_error. rewrite visit_walk_errors. apply elem_of_app. now right.
Qed.

Lemma invalid_environment_reported m env reason rest :
  env ∈ man_Environments m ->
  NameIsDNS1035Label (env_Name env) true = reason :: rest ->
  FieldErr (invalidNameError (env_Name env) reason [yamlPath (PathForEnvironment env)])
  ∈ errs (walked m).
Proof.
  intros Hin Hname. rewrite walked_visits.
  destruct (traversal_split m env Hin) as (ns1 & ns2 & ->).
  rewrite visits_app, visits_cons. apply visits_keeps_error.
  unfold visit. rewrite Environment_errs. unfold validateName. rewrite Hname.
  apply elem_of_app; right. apply elem_of_app; right. apply elem_of_app; right.
  apply elem_of_app; left. left.
Qed.

Lemma invalid_config_reported m cfg argo reason rest :
  man_Config m = Some cfg ->
  cfg_ArgoCDConfig cfg = Some argo ->
  NameIsDNS1035Label (argo_Namespace argo) true = reason :: rest ->
  FieldErr (invalidNameError (argo_Namespace argo) reason
              ["config." +:+ argo_Namespace argo])
  ∈ errs (walked m).
Proof.
  intros Hcfg Hargo Hname. rewrite walked_visits. apply visits_keeps_error.
  rewrite configured_errs. unfold vv_validateConfig. rewrite Hcfg, Hargo.
  cbn [fst snd]. unfold validateName at 1. rewrite Hname.
  apply elem_of_app; left. left.
Qed.

(** C7: [Validate] returns nil exactly when the config check, the
    callbacks of the walk and the deferred source-URL check appended no error
    at all, and otherwise the join of the errors of the three, in this order.
    Every error that a callback appends during the walk is in the result; so
    an environment or a config name that fails the label check, or a source
    URL declared twice, rules out success, and a manifest without Config
    block and without environments is accepted. *)
Theorem C7_success_iff_no_errors (m : Manifest) :
  (exists result, Validate m result)
  /\ (forall result, Validate m result ->
        exists urlErrs,
          vv_validateServiceURLs (visits (traversal m) (configured m)) urlErrs
          /\ (result = None <->
              (vv_validateConfig new_validateVisitor m).2 = []
              /\ walk_errors (traversal m) (configured m) = []
              /\ urlErrs = [])
          /\ (forall me, result = Some me ->
                Errors me
                = (vv_validateConfig new_validateVisitor m).2
                  ++ walk_errors (traversal m) (configured m) ++ urlErrs))
  /\ (forall result pre n post e,
        Validate m result ->
        traversal m = pre ++ n :: post ->
        e ∈ walk_errors [n] (visits pre (configured m)) ->
        exists me, result = Some me /\ e ∈ Errors me)
  /\ (forall result env reason rest,
        Validate m result ->
        env ∈ man_Environments m ->
        NameIsDNS1035Label (env_Name env) true = reason :: rest ->
        exists me, result = Some me
          /\ FieldErr {| Message := "invalid name " +:+ Quote (env_Name env);
                         Details := reason;
                         Paths := [yamlPath (PathForEnvironment env)] |} ∈ Errors me)
  /\ (forall result cfg argo reason rest,
        Validate m result ->
        man_Config m = Some cfg ->
        cfg_ArgoCDConfig cfg = Some argo ->
        NameIsDNS1035Label (argo_Namespace argo) true = reason :: rest ->
        exists me, result = Some me
          /\ FieldErr {| Message := "invalid name " +:+ Quote (argo_Namespace argo);
                         Details := reason;
                         Paths := ["config." +:+ argo_Namespace argo] |} ∈ Errors me)
  /\ (forall result url,
        Validate m result ->
        url <> "" ->
        2 <= length (declaring_paths url (traversal m)) ->
        result <> None)
  /\ (man_Config m = None -> man_Environments m = [] ->
      forall result, Validate m result -> result = None).
Proof.
  split; [apply Validate_total|]. split; [|split; [|split; [|split; [|split]]]].
  - intros result (urlErrs & Hurl & ->). exists urlErrs.
    split; [now rewrite <- walked_visits|].
    rewrite joined_None, walked_walk_errors. split.
    + split.
      * intros H. apply app_eq_nil in H as [H ->]. apply app_eq_nil in H as [-> ->]. auto.
      * intros (-> & -> & ->). reflexivity.
    + intros me Hme. apply joined_Some in Hme. now rewrite Hme, app_assoc.
  - intros result pre n post e Hrun Htr He.
    apply Validate_reports with (m := m); [exact Hrun|].
    now apply (walk_error_kept m pre n post).
  - intros result env reason rest Hrun Hin Hname.
    apply Validate_reports with (m := m); [exact Hrun|].
    now apply (invalid_environment_reported m env reason rest).
  - intros result cfg argo reason rest Hrun Hcfg Hargo Hname.
    apply Validate_reports with (m := m); [exact Hrun|].
    now apply (invalid_config_reported m cfg argo reason rest).
  - intros result url (urlErrs & (entries & Hrange & ->) & ->) Hurl Hlen Hnone.
    apply joined_None in Hnone. apply app_eq_nil in Hnone as [_ Hnil].
    pose proof (walked_serviceURLs m url Hurl) as Hpaths. unfold url_paths in Hpaths.
    destruct (serviceURLs (walked m) !! url) as [paths|] eqn:Hlook; simpl in Hpaths.
    + assert (1 < length paths) as Hlong by (rewrite Hpaths; lia).
      pose proof (validateServiceURLs_one _ url paths entries Hrange Hlook Hlong) as Hone.
      rewrite Hnil in Hone. discriminate Hone.
    + rewrite <- Hpaths in Hlen. simpl in Hlen. lia.
  - intros Hcfg Henvs result (urlErrs & (entries & Hrange & ->) & ->).
    assert (walked m = new_validateVisitor) as Hw.
    { rewrite walked_visits. unfold traversal, configured, vv_validateConfig.
      now rewrite Henvs, Hcfg. }
    rewrite Hw in *. simpl in Hrange. apply map_range_empty in Hrange as ->.
    reflexivity.
Qed.

End Validator.

(** ** The label grammar *)

Lemma matches_Class_inv p s :
  matches (Class p) s -> exists c, s = String c "" /\ p c = true.
Proof. inversion 1; subst. eauto. Qed.

Lemma matches_Star_Class p s :
  matches (Star (Class p)) s <-> all_chars p s = true.
Proof.
  split.
  - intros H. remember (Star (Class p)) as r eqn:Hr.
    induction H as [| | |r0 s1 s2 H1 _ H2 IH2| |]; try discriminate; [reflexivity|].
    injection Hr as ->. apply matches_Class_inv in H1 as (c & -> & Hc).
    simpl. rewrite Hc. now apply IH2.
  - induction s as [|c s IH]; simpl; intros H.
    + constructor.
    + apply andb_true_iff in H as [Hc Hs].
      change (String c s) with (String c "" +:+ s).
      constructor; [now constructor | now apply IH].
Qed.

Lemma label_tail_spec s :
  label_tail s = true
  <-> s = ""
      \/ exists s' c, s = s' +:+ String c ""
                      /\ all_chars is_label_char s' = true /\ is_lower_alnum c = true.
Proof.
  induction s as [|c s IH].
  - simpl. tauto.
  - cbn [label_tail]. destruct s as [|c' s].
    + split.
      * intros Hc. right. exists "", c. auto.
      * intros [H|(s' & c0 & Heq & _ & Hc0)]; [discriminate|].
        destruct s' as [|a [|b s']]; simpl in Heq; try discriminate.
        now injection Heq as ->.
    + rewrite andb_true_iff, IH. split.
      * intros (Hc & [H|(s' & c0 & -> & Hs' & Hc0)]); [discriminate|].
        right. exists (String c s'), c0. simpl. rewrite Hc, Hs'. auto.
      * intros [H|(s' & c0 & Heq & Hs' & Hc0)]; [discriminate|].
        destruct s' as [|a s']; simpl in Heq; [discriminate|].
        injection Heq as -> Heq. simpl in Hs'. apply andb_true_iff in Hs' as [Ha Hs'].
        split; [exact Ha|]. right. eauto.
Qed.

Lemma matches_tail s :
  matches (Opt (Seq (Star (Class is_label_char)) (Class is_lower_alnum))) s
  <-> label_tail s = true.
Proof.
  rewrite label_tail_spec. split.
  - inversion 1 as [| | | |r|r s0 Hseq]; subst; [now left|].
    inversion Hseq as [|r1 r2 s1 s2 Hstar Hclass| | | |]; subst.
    apply matches_Class_inv in Hclass as (c & -> & Hc).
    apply matches_Star_Class in Hstar. right. eauto.
  - intros [->|(s' & c & -> & Hs' & Hc)]; [constructor|].
    apply MOptSome, MSeq; [now apply matches_Star_Class | now constructor].
Qed.

Lemma MatchString_spec value :
  dns1035LabelRegexp_MatchString value = true <-> matches dns1035LabelFmt value.
Proof.
  unfold dns1035LabelFmt. split.
  - destruct value as [|c rest]; simpl; [discriminate|].
    intros H. apply andb_true_iff in H as [Hc Hrest].
    change (String c rest) with (String c "" +:+ rest).
    constructor; [now constructor | now apply matches_tail].
  - inversion 1 as [|r1 r2 s1 s2 Hclass Htail| | | |]; subst.
    apply matches_Class_inv in Hclass as (c & -> & Hc).
    simpl. rewrite Hc. now apply matches_tail.
Qed.

Lemma NameIsDNS1035Label_spec_valid name prefix :
  NameIsDNS1035Label_spec name prefix = []
  <-> matches dns1035LabelFmt name /\ String.length name <= 63.
Proof.
  unfold NameIsDNS1035Label_spec, DNS1035LabelMaxLength.
  rewrite <- MatchString_spec.
  destruct (Nat.ltb_spec 63 (String.length name));
    destruct (dns1035LabelRegexp_MatchString name); simpl;
    split; try discriminate; try (intros [? ?]; (discriminate || lia)); auto with lia.
Qed.

(** C8: the name rule accepts exactly the strings of the label grammar
    that are at most 63 bytes long; "a" and "abc-123" are valid, the empty
    string, "-abc" and every string of 64 bytes are not; and for whatever
    label check it is given, [validateName] returns nil for the names the
    check accepts and, for a name it rejects, the invalid-name error with the
    quoted name in the message, the first reason of the check as details and
    the given path. *)
Theorem C8_name_rule :
  (forall name,
     NameIsDNS1035Label_spec name true = []
     <-> matches dns1035LabelFmt name /\ String.length name <= 63)
  /\ NameIsDNS1035Label_spec "a" true = []
  /\ NameIsDNS1035Label_spec "abc-123" true = []
  /\ NameIsDNS1035Label_spec "" true <> []
  /\ NameIsDNS1035Label_spec "-abc" true <> []
  /\ (forall name, String.length name = 64 -> NameIsDNS1035Label_spec name true <> [])
  /\ (forall Quote check name path,
        validateName Quote check name path = None <-> check name true = [])
  /\ (forall Quote check name path,
        check name true <> [] ->
        exists reason,
          head (check name true) = Some reason
          /\ validateName Quote check name path
             = Some {| Message := "invalid name " +:+ Quote name;
                       Details := reason;
                       Paths := [path] |}).
Proof.
  split; [intros name; apply NameIsDNS1035Label_spec_valid|].
  split; [reflexivity|]. split; [reflexivity|].
  split; [discriminate|]. split; [discriminate|].
  split; [|split].
  - intros name Hlen H. apply NameIsDNS1035Label_spec_valid in H as [_ H]. lia.
  - intros Quote check name path. apply validateName_accepts.
  - intros Quote check name path. apply validateName_rejects.
Qed.

(** ** The validator on the sample manifests *)

Abbreviation sample_Validate :=
  (Validate sample_Quote NameIsDNS1035Label_spec sample_PathForEnvironment
     sample_PathForApplication sample_PathForService).

Abbreviation sample_walked :=
  (walked sample_Quote NameIsDNS1035Label_spec sample_PathForEnvironment
     sample_PathForApplication sample_PathForService).

Abbreviation sample_Validate_in_order :=
  (Validate_in_order sample_Quote NameIsDNS1035Label_spec sample_PathForEnvironment
     sample_PathForApplication sample_PathForService).



(** The two orders in which the deferred check may see the URL map of
    [manifest_two_sources]. *)
Lemma two_sources_run_ab :
  sample_Validate manifest_two_sources
    (sample_Validate_in_order manifest_two_sources [entry_a; entry_b]).
Proof.
  exists (validateServiceURLs_range [entry_a; entry_b]). split; [|reflexivity].
  exists [entry_a; entry_b]. split; [|reflexivity].
  unfold map_range. vm_compute. reflexivity.
Defined.

Lemma two_sources_run_ba :
  sample_Validate manifest_two_sources
    (sample_Validate_in_order manifest_two_sources [entry_b; entry_a]).
Proof.
  exists (validateServiceURLs_range [entry_b; entry_a]). split; [|reflexivity].
  exists [entry_b; entry_a]. split; [|reflexivity].
  unfold map_range. vm_compute. apply perm_swap.
Defined.

(** C2, as stated, fails: the deferred check ranges over a map, and with
    two duplicated URLs the two duplicate-source errors come in either
    order, so two runs of [Validate] on the same manifest can return
    different values. *)
Lemma C2_counterexample_two_orders :
  exists r1 r2,
    sample_Validate manifest_two_sources r1
    /\ sample_Validate manifest_two_sources r2
    /\ r1 <> r2.
Proof.
  exists (sample_Validate_in_order manifest_two_sources [entry_a; entry_b]),
         (sample_Validate_in_order manifest_two_sources [entry_b; entry_a]).
  split; [apply two_sources_run_ab|]. split; [apply two_sources_run_ba|].
  vm_compute. discriminate.
Qed.

Lemma C2_witness_two_sources :
  exists d1 d2,
    sample_Validate_in_order manifest_two_sources [entry_a; entry_b]
    = joined (errs (sample_walked manifest_two_sources) ++ d1)
    /\ sample_Validate_in_order manifest_two_sources [entry_b; entry_a]
       = joined (errs (sample_walked manifest_two_sources) ++ d2)
    /\ d1 ≡ₚ d2.
Proof.
  destruct (C2_runs_agree_up_to_order sample_Quote NameIsDNS1035Label_spec
              sample_PathForEnvironment sample_PathForApplication sample_PathForService
              manifest_two_sources _ _ two_sources_run_ab two_sources_run_ba)
    as (d1 & d2 & E1 & E2 & Hperm & _).
  exists d1, d2. auto.
Defined.

Lemma C3_witness_two_sources :
  (exists result, sample_Validate manifest_two_sources result)
  /\ forall result, sample_Validate manifest_two_sources result ->
       exists urlErrs,
         result = Some (multierror_Join (errs (sample_walked manifest_two_sources)
                                         ++ urlErrs))
         /\ vv_validateServiceURLs (sample_walked manifest_two_sources) urlErrs
         /\ List.filter (is_duplicate_source "https://example.com/a.git")
              (errs (sample_walked manifest_two_sources)) = []
         /\ List.filter (is_duplicate_source "https://example.com/a.git") urlErrs
            = [FieldErr {| Message := "duplicate source https://example.com/a.git";
                           Details := "";
                           Paths := ["environments.dev.services.svc1";
                                     "environments.dev.services.svc2"] |}].
Proof.
  apply (C3_one_duplicate_source_error sample_Quote NameIsDNS1035Label_spec
           sample_PathForEnvironment sample_PathForApplication sample_PathForService
           manifest_two_sources "https://example.com/a.git").
  - discriminate.
  - vm_compute. lia.
Defined.

Lemma C5_witness_forward_reference :
  (exists result, sample_Validate manifest_forward_reference result)
  /\ forall result, sample_Validate manifest_forward_reference result ->
       exists me, result = Some me
         /\ FieldErr {| Message := "missing service " +:+ sample_Quote "svc1"
                                   +:+ " in app " +:+ sample_Quote "app1";
                        Details := "";
                        Paths := ["environments.dev.apps.app1"] |} ∈ Errors me.
Proof.
  apply (C5_forward_reference_missing sample_Quote NameIsDNS1035Label_spec
           sample_PathForEnvironment sample_PathForApplication sample_PathForService
           manifest_forward_reference
           [EnvNode (sample_environment "dev" [sample_application "app1" ["svc1"]] [])]
           [EnvNode (sample_environment "prod" [] [sample_service "svc1" ""]);
            SvcNode (sample_environment "prod" [] [sample_service "svc1" ""])
              (sample_service "svc1" "")]
           (sample_environment "dev" [sample_application "app1" ["svc1"]] [])
           (sample_application "app1" ["svc1"]) "svc1").
  - reflexivity.
  - left.
  - intros e s Hin. apply list_elem_of_singleton in Hin. discriminate Hin.
Defined.

Lemma C7_witness_invalid_environment :
  ((exists result, sample_Validate manifest_empty result)
   /\ forall result, sample_Validate manifest_empty result -> result = None)
  /\ ((exists result, sample_Validate manifest_invalid_environment result)
      /\ forall result, sample_Validate manifest_invalid_environment result ->
           exists me, result = Some me
             /\ FieldErr {| Message := "invalid name " +:+ sample_Quote "Bad_Name";
                            Details := RegexError;
                            Paths := ["environments.Bad_Name"] |} ∈ Errors me).
Proof.
  split.
  - destruct (C7_success_iff_no_errors sample_Quote NameIsDNS1035Label_spec
                sample_PathForEnvironment sample_PathForApplication
                sample_PathForService manifest_empty)
      as (Hruns & _ & _ & _ & _ & _ & Hempty).
    split; [exact Hruns|]. apply Hempty; reflexivity.
  - destruct (C7_success_iff_no_errors sample_Quote NameIsDNS1035Label_spec
                sample_PathForEnvironment sample_PathForApplication
                sample_PathForService manifest_invalid_environment)
      as (Hruns & _ & _ & Henv & _).
    split; [exact Hruns|]. intros result Hrun.
    apply (Henv result (sample_environment "Bad_Name" [] []) RegexError []);
      [exact Hrun | left | reflexivity].
Defined.

Lemma C8_witness_leading_dash :
  validateName sample_Quote NameIsDNS1035Label_spec "-abc" "environments.-abc"
  = Some {| Message := "invalid name " +:+ sample_Quote "-abc";
            Details := RegexError;
            Paths := ["environments.-abc"] |}.
Proof.
  destruct C8_name_rule as (_ & _ & _ & _ & _ & _ & _ & Hrejects).
  destruct (Hrejects sample_Quote NameIsDNS1035Label_spec "-abc" "environments.-abc")
    as (reason & Hhead & Hname).
  - discriminate.
  - vm_compute in Hhead. injection Hhead as <-. exact Hname.
Defined.

Lemma C10_witness_config_collision :
  (exists result, sample_Validate manifest_config_collision result)
  /\ forall result, sample_Validate manifest_config_collision result ->
       exists me, result = Some me
         /\ Errorf "The environment -argo cannot have the same name as the config names"
            ∈ Errors me.
Proof.
  destruct (C10_config_names_registered sample_Quote NameIsDNS1035Label_spec
              sample_PathForEnvironment sample_PathForApplication sample_PathForService
              manifest_config_collision
              {| cfg_ArgoCDConfig := Some {| argo_Namespace := "-argo" |};
                 cfg_PipelineConfig := Some {| pipeline_Name := "cicd" |} |}
              eq_refl) as (_ & _ & Hruns & Hcollision).
  split; [exact Hruns|].
  apply (Hcollision (sample_environment "-argo" [] [])).
  - right. left.
  - left. exists {| argo_Namespace := "-argo" |}. split; reflexivity.
Defined.

(** The reference of [manifest_path_reference] is the yaml path of a
    service and the name of none; the manifest is accepted. *)
Example path_reference_accepted :
  forall result, sample_Validate manifest_path_reference result -> result = None.
Proof.
  intros result (urlErrs & (entries & Hrange & ->) & ->).
  unfold map_range in Hrange. vm_compute in Hrange.
  apply Permutation_nil_r in Hrange as ->. reflexivity.
Qed.

(** The same reference in the first environment, ahead of the service, is
    reported as missing. *)
Example forward_reference_only_error :
  forall result, sample_Validate manifest_forward_reference result ->
    result
    = Some {| Errors :=
                [FieldErr {| Message := "missing service " +:+ sample_Quote "svc1"
                                        +:+ " in app " +:+ sample_Quote "app1";
                             Details := "";
                             Paths := ["environments.dev.apps.app1"] |}] |}.
Proof.
  intros result (urlErrs & (entries & Hrange & ->) & ->).
  unfold map_range in Hrange. vm_compute in Hrange.
  apply Permutation_nil_r in Hrange as ->. reflexivity.
Qed.

(** The service of [manifest_invalid_service] fails the name check and is
    registered all the same: the only error is the invalid name, the
    reference to it passes. *)
Example invalid_service_satisfies_reference :
  forall result, sample_Validate manifest_invalid_service result ->
    result
    = Some {| Errors :=
                [FieldErr {| Message := "invalid name " +:+ sample_Quote "Bad_Name";
                             Details := RegexError;
                             Paths := ["environments.dev.services.Bad_Name"] |}] |}.
Proof.
  intros result (urlErrs & (entries & Hrange & ->) & ->).
  unfold map_range in Hrange. vm_compute in Hrange.
  apply Permutation_nil_r in Hrange as ->. reflexivity.
Qed.

(** * Further properties of the code *)

(** ** The dotted paths *)

Lemma yamlPath_app a b : yamlPath (a +:+ b) = yamlPath a +:+ yamlPath b.
Proof. induction a as [|c a IH]; simpl; [reflexivity | now rewrite IH]. Qed.

Lemma string_app_nil_r (s : string) : s +:+ "" = s.
Proof.
  induction s as [|c s IH]; [reflexivity|].
  change (String c (s +:+ "") = String c s). now rewrite IH.
Qed.

Lemma string_app_assoc (a b c : string) : (a +:+ b) +:+ c = a +:+ (b +:+ c).
Proof.
  induction a as [|x a IH]; [reflexivity|].
  change (String x ((a +:+ b) +:+ c) = String x (a +:+ (b +:+ c))). now rewrite IH.
Qed.

Lemma string_app_length (a b : string) :
  String.length (a +:+ b) = String.length a + String.length b.
Proof.
  induction a as [|x a IH]; [reflexivity|].
  change (S (String.length (a +:+ b)) = S (String.length a + String.length b)).
  now rewrite IH.
Qed.

Lemma yamlJoin_fold a b :
  yamlJoin a b = a +:+ fold_right (fun s acc => "." +:+ s +:+ acc) "" b.
Proof.
  unfold yamlJoin. revert a. induction b as [|s b IH]; intros a;
    cbn [fold_left fold_right].
  - now rewrite string_app_nil_r.
  - rewrite IH. now rewrite string_app_assoc.
Qed.

(** X1: the yaml path has as many bytes as the path and no slash among
    them; a path without slash is left as it is. *)
Theorem yamlPath_no_slash (path : string) :
  String.length (yamlPath path) = String.length path
  /\ ("/"%char ∉ list_ascii_of_string (yamlPath path))
  /\ ("/"%char ∉ list_ascii_of_string path -> yamlPath path = path).
Proof.
  induction path as [|c path (IHlen & IHno & IHid)]; simpl.
  - split; [reflexivity|]. split; [apply not_elem_of_nil | reflexivity].
  - split; [now rewrite IHlen|]. split.
    + destruct (Ascii.eqb_spec c "/"%char) as [->|Hc];
        apply not_elem_of_cons; split; try exact IHno; congruence.
    + intros Hno. apply not_elem_of_cons in Hno as [Hc Hno].
      destruct (Ascii.eqb_spec c "/"%char) as [->|_]; [congruence|].
      now rewrite IHid.
Qed.

(** X2: normalising a path twice is normalising it once, and normalising
    commutes with joining: the yaml path of a joined path is the join of the
    yaml paths. *)
Theorem yamlPath_idempotent_join (a : string) (b : list string) :
  yamlPath (yamlPath a) = yamlPath a
  /\ yamlPath (yamlJoin a b) = yamlJoin (yamlPath a) (map yamlPath b).
Proof.
  split.
  - induction a as [|c a IH]; simpl; [reflexivity|]. rewrite IH.
    destruct (Ascii.eqb c "/"%char) eqn:E; simpl; rewrite ?E; reflexivity.
  - unfold yamlJoin. revert a. induction b as [|s b IH]; intros a; simpl; [reflexivity|].
    rewrite IH. now rewrite !yamlPath_app.
Qed.

(** X3: [yamlJoin] puts a dot before every segment: it is [strings.Join]
    with "." over the base and the segments; joining two lists of segments
    at once is joining them one after the other. *)
Theorem yamlJoin_is_Join (a : string) (b c : list string) :
  yamlJoin a b = strings_Join (a :: b) "."
  /\ yamlJoin a (b ++ c) = yamlJoin (yamlJoin a b) c.
Proof.
  split.
  - rewrite yamlJoin_fold. revert a. induction b as [|s b IH]; intros a.
    + cbn [fold_right strings_Join]. apply string_app_nil_r.
    + change (strings_Join (a :: s :: b) ".") with (a +:+ "." +:+ strings_Join (s :: b) ".").
      rewrite <- IH. reflexivity.
  - unfold yamlJoin. apply fold_left_app.
Qed.

(** ** Image repositories *)

Lemma strings_Split_cons s sep : exists piece pieces, strings_Split s sep = piece :: pieces.
Proof.
  induction s as [|c s (piece & pieces & IH)]; simpl; [eauto|].
  destruct (Ascii.eqb c sep); [eauto|]. rewrite IH. eauto.
Qed.

Lemma strings_Split_no_sep s sep :
  sep ∉ list_ascii_of_string s -> strings_Split s sep = [s].
Proof.
  induction s as [|c s IH]; simpl; intros Hno; [reflexivity|].
  apply not_elem_of_cons in Hno as [Hc Hno].
  destruct (Ascii.eqb_spec c sep) as [->|_]; [congruence|].
  now rewrite IH.
Qed.

Lemma strings_Split_app s1 s2 sep :
  sep ∉ list_ascii_of_string s1 ->
  strings_Split (s1 +:+ String sep s2) sep = s1 :: strings_Split s2 sep.
Proof.
  induction s1 as [|c s1 IH]; intros Hno.
  - simpl. now rewrite Ascii.eqb_refl.
  - change (String c s1 +:+ String sep s2) with (String c (s1 +:+ String sep s2)).
    simpl in Hno. apply not_elem_of_cons in Hno as [Hc Hno].
    cbn [strings_Split]. destruct (Ascii.eqb_spec c sep) as [->|_]; [congruence|].
    now rewrite IH.
Qed.

Lemma existsb_false_Forall {A} (f : A -> bool) (l : list A) :
  existsb f l = false <-> Forall (fun x => f x = false) l.
Proof.
  induction l as [|x l IH]; simpl.
  - split; [constructor | reflexivity].
  - rewrite orb_false_iff, IH, Forall_cons. reflexivity.
Qed.

(** X4: [ValidateImageRepo] returns no error exactly when no component of
    the repository is blank and there are three components, or two of which
    the first is neither docker.io nor quay.io; in every other case it
    returns false, the empty string and the parse error for the input. *)
Theorem ValidateImageRepo_accepts_iff (TrimSpace : string -> string)
    (imageRepo registryURL : string) :
  ((ValidateImageRepo TrimSpace imageRepo registryURL).2 = None
   <-> Forall (fun c => isBlank TrimSpace c = false) (strings_Split imageRepo "/"%char)
       /\ (length (strings_Split imageRepo "/"%char) = 3
           \/ (length (strings_Split imageRepo "/"%char) = 2
               /\ nth 0 (strings_Split imageRepo "/"%char) "" <> "docker.io"
               /\ nth 0 (strings_Split imageRepo "/"%char) "" <> "quay.io")))
  /\ ((ValidateImageRepo TrimSpace imageRepo registryURL).2 <> None ->
      ValidateImageRepo TrimSpace imageRepo registryURL
      = (false, "", Some (imageRepoValidationErrors imageRepo))).
Proof.
  unfold ValidateImageRepo.
  set (components := strings_Split imageRepo "/"%char).
  destruct (Nat.ltb_spec (length components) 2) as [Hlt|Hge].
  { split; [|reflexivity]. split; [discriminate|]. intros [_ [H|[H _]]]; lia. }
  destruct (existsb (isBlank TrimSpace) components) eqn:Hblank.
  { split; [|reflexivity]. split; [discriminate|]. intros [H _].
    apply existsb_false_Forall in H. congruence. }
  apply existsb_false_Forall in Hblank.
  destruct (Nat.eqb_spec (length components) 2) as [H2|Hn2].
  - destruct (String.eqb_spec (nth 0 components "") "docker.io") as [Hd|Hd]; simpl.
    { split; [|reflexivity]. split; [discriminate|]. intros [_ [H|(_ & H & _)]]; [lia|].
      contradiction. }
    destruct (String.eqb_spec (nth 0 components "") "quay.io") as [Hq|Hq]; simpl.
    { split; [|reflexivity]. split; [discriminate|]. intros [_ [H|(_ & _ & H)]]; [lia|].
      contradiction. }
    split; [|congruence]. split; [auto|reflexivity].
  - destruct (Nat.eqb_spec (length components) 3) as [H3|Hn3]; simpl.
    + split; [|congruence]. split; [auto|reflexivity].
    + split; [|reflexivity]. split; [discriminate|]. intros [_ [H|[H _]]]; lia.
Qed.

Lemma ValidateImageRepo_success_cases (TrimSpace : string -> string)
    (imageRepo registryURL : string) (internal : bool) (repo : string) :
  ValidateImageRepo TrimSpace imageRepo registryURL = (internal, repo, None) ->
  existsb (isBlank TrimSpace) (strings_Split imageRepo "/"%char) = false
  /\ ((length (strings_Split imageRepo "/"%char) = 2
       /\ internal = true
       /\ repo = registryURL +:+ "/" +:+ imageRepo)
      \/ (length (strings_Split imageRepo "/"%char) = 3
          /\ repo = imageRepo
          /\ (internal = true
              <-> nth 0 (strings_Split imageRepo "/"%char) "" = registryURL))).
Proof.
  unfold ValidateImageRepo.
  set (components := strings_Split imageRepo "/"%char).
  destruct (length components <? 2)%nat; [discriminate|].
  destruct (existsb (isBlank TrimSpace) components); [discriminate|].
  intros Hrun. split; [reflexivity|]. revert Hrun.
  destruct (Nat.eqb_spec (length components) 2) as [H2|Hn2].
  - destruct (_ || _); [discriminate|]. intros [= <- <-]. left. auto.
  - destruct (Nat.eqb_spec (length components) 3) as [H3|Hn3]; [|discriminate].
    intros [= <- <-]. right. split; [exact H3|]. split; [reflexivity|].
    destruct (String.eqb_spec (nth 0 components "") registryURL); split; congruence.
Qed.

(** X5: what [ValidateImageRepo] returns when it succeeds: for two
    components the repository behind the registry host, as one of the
    internal registry; for three components the repository as given, of the
    internal registry exactly when its first component is the registry. *)
Theorem ValidateImageRepo_success (TrimSpace : string -> string)
    (imageRepo registryURL : string) (internal : bool) (repo : string) :
  ValidateImageRepo TrimSpace imageRepo registryURL = (internal, repo, None) ->
  (length (strings_Split imageRepo "/"%char) = 2
   /\ internal = true
   /\ repo = registryURL +:+ "/" +:+ imageRepo)
  \/ (length (strings_Split imageRepo "/"%char) = 3
      /\ repo = imageRepo
      /\ (internal = true <-> nth 0 (strings_Split imageRepo "/"%char) "" = registryURL)).
Proof.
  intros Hrun. now destruct (ValidateImageRepo_success_cases _ _ _ _ _ Hrun).
Qed.

(** X6: a repository that [ValidateImageRepo] returns for the internal
    registry is accepted again, unchanged and as internal, provided the
    registry host holds no slash and is not blank. *)
Theorem ValidateImageRepo_stable (TrimSpace : string -> string)
    (imageRepo registryURL repo : string) :
  "/"%char ∉ list_ascii_of_string registryURL ->
  isBlank TrimSpace registryURL = false ->
  ValidateImageRepo TrimSpace imageRepo registryURL = (true, repo, None) ->
  ValidateImageRepo TrimSpace repo registryURL = (true, repo, None).
Proof.
  intros Hslash Hblank Hrun.
  destruct (ValidateImageRepo_success_cases _ _ _ _ _ Hrun)
    as (Hall & [(H2 & _ & ->)|(H3 & -> & _)]); [|exact Hrun].
  unfold ValidateImageRepo.
  change (registryURL +:+ "/" +:+ imageRepo)
    with (registryURL +:+ String "/"%char imageRepo).
  rewrite strings_Split_app by exact Hslash.
  cbn [length nth]. rewrite H2. cbn [Nat.ltb Nat.leb Nat.eqb existsb].
  rewrite Hblank, Hall. cbn [orb]. now rewrite String.eqb_refl.
Qed.

(** ** The prompt for a webhook secret *)

(** X21: the validator of a webhook secret accepts an answer exactly when
    it is not a string, or is the empty string, or has 16 bytes or more,
    whatever secret [validateSecretLength] was called with; any other answer
    gets the error about the length. *)
Theorem validateSecretLength_accepts_iff (secret : string) (input : answer) :
  (validateSecretLength secret input = None
   <-> match input with
       | StringAnswer s => s = "" \/ 16 <= String.length s
       | OtherAnswer => True
       end)
  /\ (validateSecretLength secret input = None
      \/ validateSecretLength secret input
         = Some (Errorf "The secret length should 16 or more ")).
Proof.
  destruct input as [s|]; [|split; [split; auto | now left]].
  unfold validateSecretLength, CheckSecretLength.
  destruct (String.eqb_spec s "") as [->|Hs]; simpl.
  - split; [split; auto | now left].
  - destruct (Nat.ltb_spec (String.length s) 16) as [Hlt|Hge]; simpl.
    + split; [|now right]. split; [discriminate|]. intros [H|H]; [contradiction | lia].
    + split; [split; auto | now left].
Qed.

(** ** The dependency checks of the wizard *)

(** X22: [checkBootstrapDependencies] returns an error exactly when the
    probe for the pipelines operator fails, whatever the probes for Sealed
    Secrets and ArgoCD return; it sets the Sealed Secrets service to
    sealed-secrets-controller in kube-system exactly when the first probe,
    asked about the namespace kube-systems, succeeds, and leaves it as it was
    otherwise. *)
Theorem checkBootstrapDependencies_result (service : NamespacedName) (client : Client) :
  ((checkBootstrapDependencies service client).2 = None
   <-> CheckIfPipelinesExists client "openshift-operators" = None)
  /\ ((checkBootstrapDependencies service client).2 = None
      \/ (checkBootstrapDependencies service client).2
         = Some (Errorf "Failed to satisfy the required dependencies"))
  /\ (checkBootstrapDependencies service client).1.2
     = match CheckIfSealedSecretsExists client "kube-systems" "sealed-secrets-controller" with
       | None => {| nn_Namespace := "kube-system"; nn_Name := "sealed-secrets-controller" |}
       | Some _ => service
       end.
Proof.
  unfold checkBootstrapDependencies. cbn [fst snd].
  change pipelinesOperatorNS with "openshift-operators".
  change (sealedSecretsNS +:+ "s") with "kube-systems".
  change sealedSecretsName with "sealed-secrets-controller".
  destruct (CheckIfPipelinesExists client "openshift-operators") as [e3|];
    (split; [split; (reflexivity || discriminate)|]);
    (split; [(now left) || (now right)|]);
    now destruct (CheckIfSealedSecretsExists client "kube-systems"
                    "sealed-secrets-controller").
Qed.

(** X23: whatever the probes return, the log of
    [checkBootstrapDependencies] starts three spinners and ends three, and
    holds one warning for each probe that failed. *)
Theorem checkBootstrapDependencies_log (service : NamespacedName) (client : Client) :
  length (List.filter is_spinner (checkBootstrapDependencies service client).1.1) = 3
  /\ length (List.filter is_end (checkBootstrapDependencies service client).1.1) = 3
  /\ length (List.filter is_warning (checkBootstrapDependencies service client).1.1)
     = failed_probes client
  /\ (List.filter is_end (checkBootstrapDependencies service client).1.1
      = [LogEnd true; LogEnd true; LogEnd true]
      <-> failed_probes client = 0).
Proof.
  unfold checkBootstrapDependencies, failed_probes. cbn [fst snd].
  destruct (CheckIfSealedSecretsExists client (sealedSecretsNS +:+ "s") sealedSecretsName),
           (CheckIfArgoCDExists client argoCDNS),
           (CheckIfPipelinesExists client pipelinesOperatorNS);
    repeat split; try reflexivity; try discriminate.
Qed.

(** ** The further properties on the sample inputs *)

Lemma ValidateImageRepo_success_witness :
  (length (strings_Split "project/app" "/"%char) = 2
   /\ true = true
   /\ "registry:5000/project/app" = "registry:5000" +:+ "/" +:+ "project/app")
  \/ (length (strings_Split "project/app" "/"%char) = 3
      /\ "registry:5000/project/app" = "project/app"
      /\ (true = true <-> nth 0 (strings_Split "project/app" "/"%char) "" = "registry:5000")).
Proof.
  apply (ValidateImageRepo_success sample_TrimSpace "project/app" "registry:5000"
           true "registry:5000/project/app").
  reflexivity.
Defined.

Lemma ValidateImageRepo_stable_witness :
  ValidateImageRepo sample_TrimSpace "registry:5000/project/app" "registry:5000"
  = (true, "registry:5000/project/app", None).
Proof.
  apply (ValidateImageRepo_stable sample_TrimSpace "project/app" "registry:5000").
  - refine (bool_decide_unpack _ _). vm_compute. exact I.
  - reflexivity.
  - reflexivity.
Defined.

(** [manifest_accepted] is accepted: the one entry of the URL map holds one
    path. *)
Lemma accepted_run : sample_Validate manifest_accepted None.
Proof.
  exists []. split; [|reflexivity].
  exists [("https://example.com/a.git", ["environments.dev.services.svc1"])].
  split; [|reflexivity]. unfold map_range. vm_compute. reflexivity.
Defined.

Lemma accepted_names_valid_witness :
  name_ok NameIsDNS1035Label_spec "stage" = true
  /\ (forall app, app ∈ [sample_application "app1" ["svc1"]] ->
        name_ok NameIsDNS1035Label_spec (app_Name app) = true)
  /\ (forall svc, svc ∈ [] -> name_ok NameIsDNS1035Label_spec (svc_Name svc) = true).
Proof.
  apply (proj2 (accepted_names_valid sample_Quote NameIsDNS1035Label_spec
                  sample_PathForEnvironment sample_PathForApplication
                  sample_PathForService manifest_accepted accepted_run)
           (sample_environment "stage" [sample_application "app1" ["svc1"]] [])).
  right. left.
Defined.

Lemma accepted_applications_oneOf_witness :
  (["svc1"] = [] <-> @None Repository <> None)
  /\ forall repo, @None Repository = Some repo -> repo_URL repo <> "" /\ repo_Path repo <> "".
Proof.
  apply (accepted_applications_oneOf sample_Quote NameIsDNS1035Label_spec
           sample_PathForEnvironment sample_PathForApplication sample_PathForService
           manifest_accepted accepted_run
           (sample_environment "stage" [sample_application "app1" ["svc1"]] [])
           (sample_application "app1" ["svc1"])).
  - right. left.
  - left.
Defined.

Lemma accepted_blocks_complete_witness :
  exists integration,
    Integration {| Integration := Some {| Bindings := ["github-push-binding"] |} |}
    = Some integration
    /\ Forall (fun name => name_ok NameIsDNS1035Label_spec name = true)
              (Bindings integration).
Proof.
  destruct (accepted_blocks_complete sample_Quote NameIsDNS1035Label_spec
              sample_PathForEnvironment sample_PathForApplication sample_PathForService
              manifest_accepted accepted_run _ (list_elem_of_here _ _)) as [Hpipelines _].
  apply Hpipelines. reflexivity.
Defined.

Lemma accepted_references_resolved_witness :
  "svc1"
  ∈ service_keys sample_PathForService
      (firstn 4 (traversal manifest_accepted)).
Proof.
  apply (accepted_references_resolved sample_Quote NameIsDNS1035Label_spec
           sample_PathForEnvironment sample_PathForApplication sample_PathForService
           manifest_accepted accepted_run
           (firstn 4 (traversal manifest_accepted))
           (sample_environment "stage" [sample_application "app1" ["svc1"]] [])
           (sample_application "app1" ["svc1"]) []).
  - reflexivity.
  - left.
Defined.

Lemma accepted_sources_distinct_witness :
  length (declaring_paths sample_PathForService "https://example.com/a.git"
            (traversal manifest_accepted)) <= 1.
Proof.
  apply (accepted_sources_distinct sample_Quote NameIsDNS1035Label_spec
           sample_PathForEnvironment sample_PathForApplication sample_PathForService
           manifest_accepted accepted_run).
  discriminate.
Defined.

Lemma accepted_paths_unique_witness :
  NoDup (env_paths sample_PathForEnvironment (traversal manifest_accepted))
  /\ NoDup (app_paths sample_PathForApplication (traversal manifest_accepted))
  /\ NoDup (service_paths sample_PathForService (traversal manifest_accepted)).
Proof.
  apply (accepted_paths_unique sample_Quote NameIsDNS1035Label_spec
           sample_PathForEnvironment sample_PathForApplication sample_PathForService
           manifest_accepted accepted_run).
Defined.

Lemma no_sources_run :
  sample_Validate manifest_no_sources
    (Some {| Errors :=
               [FieldErr {| Message := "missing service " +:+ sample_Quote "absent"
                                       +:+ " in app " +:+ sample_Quote "app1";
                            Details := "";
                            Paths := ["environments.dev.apps.app1"] |}] |}).
Proof.
  exists []. split; [|reflexivity].
  exists []. split; [|reflexivity]. unfold map_range. vm_compute. reflexivity.
Defined.

Lemma empty_source_never_duplicate_witness :
  List.filter (is_duplicate_source "")
    [FieldErr {| Message := "missing service " +:+ sample_Quote "absent"
                            +:+ " in app " +:+ sample_Quote "app1";
                 Details := "";
                 Paths := ["environments.dev.apps.app1"] |}] = [].
Proof.
  apply (empty_source_never_duplicate sample_Quote NameIsDNS1035Label_spec
           sample_PathForEnvironment sample_PathForApplication sample_PathForService
           manifest_no_sources _ no_sources_run).
Defined.
